(** * A shallow embedding of cfexp (packages/cfexp/src/index.ts)

    The result algebra ([Valid | Invalid | Failure] and [bind]), capture
    sets with their merge and cross product, [capture], [chain],
    [intersection], [mergeResults], [getCanonical], and the memoised
    traversal engine [__transform__].

    Conventions of the embedding:
    - JS values are [val]; objects are compared by reference ([VObj r]).
    - A [CaptureKey] and a transformer are compared by reference: [key] and
      [tid] are their object references.
    - Code that can throw an [Error] returns [option]: [None] is "throws".
    - Optional [string | string[]] arguments of [valid], [invalid] and
      [failure] are taken in their array form. *)

From Stdlib Require Import List String ZArith Bool Arith Lia.
Import ListNotations.
Open Scope string_scope.
Open Scope list_scope.

Module Algebra.

Inductive val : Type :=
| VUndefined
| VNull
| VBool (b : bool)
| VNum (n : Z)
| VStr (s : string)
| VObj (ref : nat).

Definition val_eq_dec (x y : val) : {x = y} + {x <> y}.
Proof. decide equality; auto using Bool.bool_dec, Z.eq_dec, string_dec, Nat.eq_dec. Defined.

Definition val_eqb (x y : val) : bool := if val_eq_dec x y then true else false.

(** [CaptureKey] objects and transformers, by reference. *)
Definition key := nat.
Definition tid := nat.

(** [ValidationResult], [CaptureSet] and [Capture]. A [Capture] is the
    object literal [{ input, output }] built by one execution of a
    [capture] transformer; [producer] is the reference of that transformer.
    Within one traversal a transformer runs once per input (memoisation), so
    [(producer, input)] is the object identity of the capture. *)
Inductive result : Type :=
| Valid (value : val) (warnings : list string) (captures : list CaptureSet)
| Invalid (value : val) (errors : list string) (warnings : list string)
    (captures : list CaptureSet)
| Failure (errors : list string) (warnings : list string)
with CaptureSet : Type :=
| mkCaptureSet (overloadedKeys : list key) (definedKeys : list (key * Capture))
with Capture : Type :=
| mkCapture (producer : tid) (input : val) (output : result).

(** Field accessors; [errors_of] is [r.errors || []]. *)
Definition value_of (r : result) : option val :=
  match r with
  | Valid v _ _ | Invalid v _ _ _ => Some v
  | Failure _ _ => None
  end.

Definition captures_of (r : result) : option (list CaptureSet) :=
  match r with
  | Valid _ _ cs | Invalid _ _ _ cs => Some cs
  | Failure _ _ => None
  end.

Definition warnings_of (r : result) : list string :=
  match r with
  | Valid _ w _ | Invalid _ _ w _ | Failure _ w => w
  end.

Definition errors_of (r : result) : list string :=
  match r with
  | Valid _ _ _ => []
  | Invalid _ e _ _ | Failure e _ => e
  end.

Definition isValid (r : result) : bool :=
  match r with Valid _ _ _ => true | _ => false end.
Definition isInvalid (r : result) : bool :=
  match r with Invalid _ _ _ _ => true | _ => false end.
Definition isFailure (r : result) : bool :=
  match r with Failure _ _ => true | _ => false end.

(** ** mkCaptureSet *)

Definition overloadedKeys (s : CaptureSet) : list key :=
  match s with mkCaptureSet o _ => o end.
Definition definedKeys (s : CaptureSet) : list (key * Capture) :=
  match s with mkCaptureSet _ d => d end.

(** [Map.get], [Map.has], [Map.delete] on the insertion-ordered map. *)
Fixpoint map_get (k : key) (m : list (key * Capture)) : option Capture :=
  match m with
  | [] => None
  | (k', v) :: m' => if Nat.eqb k k' then Some v else map_get k m'
  end.

Definition map_has (k : key) (m : list (key * Capture)) : bool :=
  match map_get k m with Some _ => true | None => false end.

Definition map_delete (k : key) (m : list (key * Capture)) : list (key * Capture) :=
  filter (fun kv => negb (Nat.eqb k (fst kv))) m.

(** [Set.has] and [Set.add] on the insertion-ordered set. *)
Definition set_has (k : key) (s : list key) : bool := existsb (Nat.eqb k) s.

Definition set_add (k : key) (s : list key) : list key :=
  if set_has k s then s else s ++ [k].

(** [mkCaptureSet.add] *)
Definition CaptureSet_add (k : key) (io : Capture) (this : CaptureSet) : CaptureSet :=
  match this with
  | mkCaptureSet o d =>
      if set_has k o then this
      else if map_has k d then mkCaptureSet (set_add k o) (map_delete k d)
      else mkCaptureSet o (d ++ [(k, io)])
  end.

(** [mkCaptureSet.get] *)
Definition CaptureSet_get (k : key) (this : CaptureSet) : option Capture :=
  map_get k (definedKeys this).

Definition emptyCaptureSet : CaptureSet := mkCaptureSet [] [].

(** One iteration of the constructor's loop: first the child's overloaded
    keys, then each of its defined entries through [add]. *)
Definition merge_child (this : CaptureSet) (child : CaptureSet) : CaptureSet :=
  let this1 :=
    fold_left (fun s k => mkCaptureSet (set_add k (overloadedKeys s)) (definedKeys s))
      (overloadedKeys child) this in
  fold_left (fun s kv => CaptureSet_add (fst kv) (snd kv) s) (definedKeys child) this1.

(** [new mkCaptureSet(captureSets)] *)
Definition new_CaptureSet (captureSets : list CaptureSet) : CaptureSet :=
  fold_left merge_child captureSets emptyCaptureSet.

(** [flatMap] *)
Definition flatMap {T U : Type} (arr : list T) (fn : T -> list U) : list U :=
  List.concat (List.map fn arr).

(** [crossProductCaptures]; [None] is the thrown [Error]. *)
Fixpoint crossProductCaptures (captures : list (list CaptureSet))
  : option (list CaptureSet) :=
  match captures with
  | [] => None
  | [c] => Some c
  | foos :: rest =>
      match crossProductCaptures rest with
      | None => None
      | Some bars =>
          match foos with
          | [] => Some bars
          | _ => Some (flatMap foos (fun foo =>
                         map (fun bar => new_CaptureSet [foo; bar]) bars))
          end
      end
  end.

(** ** Results *)

(** [valid], [invalid], [failure]: the exported constructors. *)
Definition valid (value : val) (warnings : list string) (captures : list CaptureSet)
  : result := Valid value warnings captures.

Definition invalid (value : val) (errors warnings : list string)
  (captures : list CaptureSet) : result := Invalid value errors warnings captures.

Definition failure (errors warnings : list string) : result := Failure errors warnings.

(** The constructors called with their default arguments:
    [warnings = []], [errors = []], [captures = [new mkCaptureSet([])]]. *)
Definition valid_default (value : val) : result :=
  valid value [] [new_CaptureSet []].

Definition invalid_default (value : val) : result :=
  invalid value [] [] [new_CaptureSet []].

(** [__ValidationResult__.bind]. The branch for an unrecognised result kind
    is unreachable on the sum type. *)
Definition bind (self : result) (binding : val -> option result) : option result :=
  match self with
  | Failure _ _ => Some self
  | Valid value _ scaps | Invalid value _ _ scaps =>
      match binding value with
      | None => None
      | Some result =>
          let warnings := warnings_of self ++ warnings_of result in
          let errors := errors_of self ++ errors_of result in
          match result with
          | Failure _ _ => Some (failure errors warnings)
          | Valid rvalue _ rcaps | Invalid rvalue _ _ rcaps =>
              match crossProductCaptures [scaps; rcaps] with
              | None => None
              | Some captures =>
                  match errors with
                  | [] => Some (valid rvalue warnings captures)
                  | _ :: _ => Some (invalid rvalue errors warnings captures)
                  end
              end
          end
      end
  end.

(** [get]: one lookup per mkCaptureSet; [Failure.get] returns [[]]. *)
Definition get (self : result) (k : key) : list (option Capture) :=
  match self with
  | Valid _ _ cs | Invalid _ _ _ cs => map (CaptureSet_get k) cs
  | Failure _ _ => []
  end.

(** Reference identity of a capture object. *)
Definition capture_ref (c : Capture) : tid * val :=
  match c with mkCapture p i _ => (p, i) end.

Definition same_capture (c1 c2 : Capture) : bool :=
  let '(p1, i1) := capture_ref c1 in
  let '(p2, i2) := capture_ref c2 in
  Nat.eqb p1 p2 && val_eqb i1 i2.

(** [.filter(just)] *)
Definition filter_just (l : list (option Capture)) : list Capture :=
  flatMap l (fun o => match o with Some c => [c] | None => [] end).

(** [new Set(values)]: insertion order, duplicates by identity dropped. *)
Definition new_Set (values : list Capture) : list Capture :=
  fold_left (fun acc c => if existsb (same_capture c) acc then acc else acc ++ [c])
    values [].

(** [__ValidationResult__.getCanonical] *)
Definition getCanonical (self : result) (k : key) : option Capture :=
  match new_Set (filter_just (get self k)) with
  | [rawValue] => Some rawValue
  | _ => None
  end.

(** ** Transformers

    A transformer maps an input to a result or throws. A request
    [transform(input, t)] is the application [t input]: within one traversal
    it is answered by the result [t] produces on that input (the memoisation
    itself is modelled in [Traversal]). *)
Definition transformer := val -> option result.

(** [capture(key, transformer)], as the transformer with reference [self]. *)
Definition capture (self : tid) (k : key) (t : transformer) : transformer :=
  fun input =>
    match t input with
    | None => None
    | Some output =>
        let captures := CaptureSet_add k (mkCapture self input output) (new_CaptureSet []) in
        bind output (fun value => Some (valid value [] [captures]))
    end.

(** [chain(first, ...rest)] *)
Definition chain (first : transformer) (rest : list transformer) : transformer :=
  fun input =>
    fold_left
      (fun lastResult t =>
         match lastResult with
         | None => None
         | Some lr => bind lr (fun lastValue => t lastValue)
         end)
      rest (first input).

(** Strict equality of production contexts ([undefined] or a transformer). *)
Definition ctx_eqb (a b : option tid) : bool :=
  match a, b with
  | None, None => true
  | Some x, Some y => Nat.eqb x y
  | _, _ => false
  end.

(** [MultiMap.add] on an insertion-ordered map keyed by the production
    context ([productionContext.get(result)], possibly [undefined]). *)
Fixpoint multimap_add (k : option tid) (values : list CaptureSet)
  (m : list (option tid * list CaptureSet)) : list (option tid * list CaptureSet) :=
  match m with
  | [] => [(k, values)]
  | (k', vs) :: m' =>
      if ctx_eqb k k' then (k', vs ++ values) :: m'
      else (k', vs) :: multimap_add k values m'
  end.

(** The loop of [mergeResults]: values and grouped captures up to the first
    [Failure]. *)
Fixpoint collect (results : list (option tid * result)) (values : list val)
  (allCaptures : list (option tid * list CaptureSet))
  : list val * list (option tid * list CaptureSet) :=
  match results with
  | [] => (values, allCaptures)
  | (ctx, r) :: rest =>
      match r with
      | Failure _ _ => (values, allCaptures)
      | Valid v _ cs | Invalid v _ _ cs =>
          collect rest (values ++ [v]) (multimap_add ctx cs allCaptures)
      end
  end.

(** [mergeResults(results, mapping)]; each result comes with its
    production context. *)
Definition mergeResults (results : list (option tid * result))
  (mapping : list val -> option result) : option result :=
  let warnings := flatMap results (fun cr => warnings_of (snd cr)) in
  let errors := flatMap results (fun cr => errors_of (snd cr)) in
  let '(values, allCaptures) := collect results [] [] in
  match crossProductCaptures (map snd allCaptures) with
  | None => None
  | Some captures =>
      if Nat.eqb (List.length values) (List.length results) then
        match mapping values with
        | None => None
        | Some value =>
            match value with
            | Failure verrors vwarnings =>
                Some (failure (verrors ++ errors) (vwarnings ++ warnings))
            | _ =>
                match errors with
                | _ :: _ => bind value (fun foo => Some (invalid foo errors warnings captures))
                | [] => bind value (fun foo => Some (valid foo warnings captures))
                end
            end
        end
      else Some (failure errors warnings)
  end.

(** [transformers.map(transformer => transform(input, transformer))] *)
Fixpoint run_all (ts : list (tid * transformer)) (input : val)
  : option (list (option tid * result)) :=
  match ts with
  | [] => Some []
  | (id, t) :: ts' =>
      match t input with
      | None => None
      | Some r =>
          match run_all ts' input with
          | None => None
          | Some rs => Some ((Some id, r) :: rs)
          end
      end
  end.

(** [intersection(...transformers)] *)
Definition intersection (ts : list (tid * transformer)) : transformer :=
  fun input =>
    match run_all ts input with
    | None => None
    | Some results => mergeResults results (fun _ => Some (valid_default input))
    end.

(** The transformer [(input) => valid(input)]. *)
Definition accept : transformer := fun input => Some (valid_default input).

(** Warnings and errors of a run ([None]: the run throws). *)
Definition diag (o : option result) : option (list string * list string) :=
  option_map (fun r => (warnings_of r, errors_of r)) o.

(** Value, warnings and errors of a result. *)
Definition observe (r : result) : option val * list string * list string :=
  (value_of r, warnings_of r, errors_of r).

(** Following the spec's words for a three-stage chain: the warnings and
    errors contributed by each stage that runs, in stage order; a stage
    without a value (a Failure) ends the run. *)
Definition stage_diagnostics (a b c : transformer) (input : val)
  : option (list string * list string) :=
  match a input with
  | None => None
  | Some ra =>
      match value_of ra with
      | None => Some (warnings_of ra, errors_of ra)
      | Some va =>
          match b va with
          | None => None
          | Some rb =>
              match value_of rb with
              | None => Some (warnings_of ra ++ warnings_of rb, errors_of ra ++ errors_of rb)
              | Some vb =>
                  match c vb with
                  | None => None
                  | Some rc =>
                      Some (warnings_of ra ++ warnings_of rb ++ warnings_of rc,
                            errors_of ra ++ errors_of rb ++ errors_of rc)
                  end
              end
          end
      end
  end.

(** The three states of a key in a capture set. *)
Definition key_overloaded (k : key) (s : CaptureSet) : Prop :=
  set_has k (overloadedKeys s) = true /\ CaptureSet_get k s = None.
Definition key_defined (k : key) (s : CaptureSet) : Prop :=
  set_has k (overloadedKeys s) = false /\ map_has k (definedKeys s) = true.
Definition key_absent (k : key) (s : CaptureSet) : Prop :=
  set_has k (overloadedKeys s) = false /\ CaptureSet_get k s = None.

End Algebra.

(** * The memoised traversal engine ([__transform__])

    A transformer body is a program over the traversal function: it may
    request [transform(i, t)], allocate a result object, or read one. Result
    objects are references into a heap, so "the identical Result instance"
    is equality of references. The engine state records, for the analysis,
    a log of the traversal function's events. *)
Module Traversal.

Import Algebra.

Definition ref := nat.
Definition pair := (tid * val)%type.

Definition pair_eqb (p q : pair) : bool :=
  Nat.eqb (fst p) (fst q) && val_eqb (snd p) (snd q).

(** [Hit]: a request answered from the cache; [Enter]: the transformer is
    invoked on a miss; [Exit]: the invoked transformer returned. *)
Inductive event : Type :=
| Hit (p : pair) (r : ref)
| Enter (p : pair)
| Exit (p : pair) (r : ref).

Section Engine.

(** Contents of a result object. *)
Variable D : Type.

Inductive prog : Type :=
| Ret (r : ref)
| Req (t : tid) (i : val) (k : ref -> prog)
| New (d : D) (k : ref -> prog)
| Read (r : ref) (k : option D -> prog).

Record state : Type := mkState {
  cache : list (pair * ref);
  heap : list D;
  productionContext : list (ref * tid);
  log : list event
}.

Definition init_state : state := mkState [] [] [] [].

(** The two-level cache [WeakMap<Transformer, Map<input, Result>>], keyed
    by the pair. *)
Fixpoint cache_get (p : pair) (c : list (pair * ref)) : option ref :=
  match c with
  | [] => None
  | (q, r) :: c' => if pair_eqb p q then Some r else cache_get p c'
  end.

Definition log_event (e : event) (s : state) : state :=
  mkState (cache s) (heap s) (productionContext s) (log s ++ [e]).

(** Running a body, with [request] as the traversal function. *)
Fixpoint exec (request : tid -> val -> state -> option (ref * state)) (p : prog)
  (s : state) : option (ref * state) :=
  match p with
  | Ret r => Some (r, s)
  | Req t i k =>
      match request t i s with
      | None => None
      | Some (r, s') => exec request (k r) s'
      end
  | New d k =>
      exec request (k (List.length (heap s)))
        (mkState (cache s) (heap s ++ [d]) (productionContext s) (log s))
  | Read r k => exec request (k (nth_error (heap s) r)) s
  end.

(** [body t i] is [t(i, transform)]. *)
Variable body : tid -> val -> prog.

(** The inner [transform] of [__transform__]; [fuel] bounds the call depth
    ([None] when it runs out, the model of a run that does not finish). *)
Fixpoint transform (fuel : nat) (t : tid) (i : val) (s : state)
  : option (ref * state) :=
  match fuel with
  | O => None
  | S fuel' =>
      match cache_get (t, i) (cache s) with
      | Some bar => Some (bar, log_event (Hit (t, i) bar) s)
      | None =>
          match exec (transform fuel') (body t i) (log_event (Enter (t, i)) s) with
          | None => None
          | Some (result, s2) =>
              Some (result,
                    mkState (((t, i), result) :: cache s2) (heap s2)
                      ((result, t) :: productionContext s2)
                      (log s2 ++ [Exit (t, i) result]))
          end
      end
  end.

(** [__transform__(input, transformer)]: the root transformer is called
    directly, with a fresh cache. *)
Definition __transform__ (fuel : nat) (transformer : tid) (input : val)
  : option (ref * state) :=
  exec (transform fuel) (body transformer input) init_state.

End Engine.

Arguments Ret {D}.
Arguments Req {D}.
Arguments New {D}.
Arguments Read {D}.
Arguments mkState {D}.
Arguments cache {D}.
Arguments heap {D}.
Arguments productionContext {D}.
Arguments log {D}.
Arguments init_state {D}.
Arguments log_event {D}.
Arguments exec {D}.
Arguments transform {D}.
Arguments __transform__ {D}.


(** Analysis of a log. *)

(** Pairs whose invocation has not returned yet, from the events. *)
Fixpoint inflight_from (st : list pair) (l : list event) : list pair :=
  match l with
  | [] => st
  | Enter p :: l' => inflight_from (p :: st) l'
  | Exit _ _ :: l' => inflight_from (tl st) l'
  | Hit _ _ :: l' => inflight_from st l'
  end.

(** No pair is invoked again while its own invocation is still running:
    the (transformer, input) requests form no cycle. *)
Fixpoint reentry_free_from (st : list pair) (l : list event) : bool :=
  match l with
  | [] => true
  | Enter p :: l' => negb (existsb (pair_eqb p) st) && reentry_free_from (p :: st) l'
  | Exit _ _ :: l' => reentry_free_from (tl st) l'
  | Hit _ _ :: l' => reentry_free_from st l'
  end.

Definition reentry_free (l : list event) : bool := reentry_free_from [] l.

(** The results returned to the requests of pair [p]. *)
Definition responses (p : pair) (l : list event) : list ref :=
  flat_map (fun e => match e with
                     | Hit q r | Exit q r => if pair_eqb q p then [r] else []
                     | Enter _ => []
                     end) l.

(** How many times the traversal function invoked the transformer on [p]. *)
Definition count_enter (p : pair) (l : list event) : nat :=
  List.length (filter (fun e => match e with Enter q => pair_eqb q p | _ => false end) l).

(** The cache agrees with every answer in the log, no pair in flight is
    cached, an invoked pair is in flight or cached, no pair was invoked
    twice, and the outer pairs [st0] stay in flight and uninvoked. *)
Definition inv {D} (st0 : list pair) (s : state D) : Prop :=
  (forall p r, In (Hit p r) (log s) \/ In (Exit p r) (log s) ->
     cache_get p (cache s) = Some r) /\
  (forall p, In p (inflight_from st0 (log s)) -> cache_get p (cache s) = None) /\
  (forall p, In (Enter p) (log s) ->
     In p (inflight_from st0 (log s)) \/ cache_get p (cache s) <> None) /\
  (forall p, count_enter p (log s) <= 1) /\
  (forall p, In p st0 -> In p (inflight_from st0 (log s)) /\ ~ In (Enter p) (log s)).

(** What a request or a body run guarantees from [s] to [s']. *)
Definition step_post {D} (st0 : list pair) (s s' : state D) : Prop :=
  inv st0 s' /\
  inflight_from st0 (log s') = inflight_from st0 (log s) /\
  (forall p r, cache_get p (cache s) = Some r -> cache_get p (cache s') = Some r).

(** A transformer that requests one child twice on the same input; the
    child allocates its result. *)
Definition diamond_body (t : tid) (i : val) : prog nat :=
  match t with
  | O => Req 1 i (fun r1 => Req 1 i (fun r2 => Ret r2))
  | _ => New 5 (fun r => Ret r)
  end.

End Traversal.

(** * [union] (packages/cfexp/src/index.ts) *)
Module Union.

Import Algebra.

(** The loop of [union]: [firstInvalid] and [firstFailure] are the
    [undefined]-or-result accumulators ([x || result]). *)
Fixpoint union_loop (ts : list transformer) (input : val)
  (firstInvalid firstFailure : option result) : option result :=
  match ts with
  | [] =>
      Some (match firstInvalid with
            | Some r => r
            | None =>
                match firstFailure with
                | Some r => r
                | None => failure ["The impossible happened"] []
                end
            end)
  | t :: ts' =>
      match t input with
      | None => None
      | Some result =>
          match result with
          | Valid _ _ _ => Some result
          | Invalid _ _ _ _ =>
              union_loop ts' input
                (match firstInvalid with Some r => Some r | None => Some result end)
                firstFailure
          | Failure _ _ =>
              union_loop ts' input firstInvalid
                (match firstFailure with Some r => Some r | None => Some result end)
          end
      end
  end.

(** [union(...transformers)] *)
Definition union (ts : list transformer) : transformer :=
  fun input => union_loop ts input None None.

End Union.

(** * Combinators for plain objects (packages/cfexp/src/pojo.ts) *)
Module Pojo.

Import Algebra.

Local Open Scope string_scope.

(** [typeof]; a [VObj] is a non-callable object (arrays included). *)
Definition typeof (v : val) : string :=
  match v with
  | VUndefined => "undefined"
  | VNull => "object"
  | VBool _ => "boolean"
  | VNum _ => "number"
  | VStr _ => "string"
  | VObj _ => "object"
  end.

(** Decimal rendering of an integer, as [String(n)]. *)
Definition digit (d : Z) : string :=
  String (Ascii.ascii_of_nat (48 + Z.to_nat d)) EmptyString.

Fixpoint digits_aux (fuel : nat) (z : Z) (acc : string) : string :=
  match fuel with
  | O => acc
  | S f =>
      let acc' := digit (z mod 10) ++ acc in
      if Z.eqb (z / 10) 0 then acc' else digits_aux f (z / 10) acc'
  end.

Definition Z_to_string (z : Z) : string :=
  match z with
  | Z0 => "0"
  | Zpos p => digits_aux (Pos.size_nat p) z ""
  | Zneg p => "-" ++ digits_aux (Pos.size_nat p) (Zpos p) ""
  end.

Definition nat_to_string (n : nat) : string := Z_to_string (Z.of_nat n).

(** References of the global constructors. *)
Definition NumberRef : nat := 1.
Definition StringRef : nat := 2.
Definition BooleanRef : nat := 3.
Definition ObjectRef : nat := 4.
Definition ArrayRef : nat := 5.

(** A constructor function: its reference and its [name]. *)
Record ctor : Type := mkCtor { ctor_ref : nat; ctor_name : string }.

Definition ObjectCtor : ctor := mkCtor ObjectRef "Object".
Definition ArrayCtor : ctor := mkCtor ArrayRef "Array".

(** [primitiveTypesByConstructor.get(constructor)] *)
Definition primitiveTypesByConstructor (c : ctor) : option string :=
  if Nat.eqb (ctor_ref c) NumberRef then Some "number"
  else if Nat.eqb (ctor_ref c) StringRef then Some "string"
  else if Nat.eqb (ctor_ref c) BooleanRef then Some "boolean"
  else None.

Section Heap.

(** The input objects, read-only: [instance_of r c] is [r instanceof c]
    for an object [r] and an ordinary constructor [c]; [obj_to_string r] is
    the string conversion of [r] in a template literal ([None]: it throws);
    [object_keys] is [Object.keys]; [prop o k] is [o[k]]; [array_elems a]
    lists the elements of an array [a].
    Scope of the model: inputs are plain data. Objects are not proxies and
    constructors have the default [Symbol.hasInstance], so [instanceof]
    neither throws nor accepts a primitive; arrays are dense (without holes),
    so [arr.map] visits every index. *)
Variable instance_of : nat -> nat -> bool.
Variable obj_to_string : nat -> option string.
Variable object_keys : val -> option (list string).
Variable prop : val -> string -> val.
Variable array_elems : val -> list val.
(** The objects and arrays the combinators allocate for their values. *)
Variable new_object : list (string * val) -> val.
Variable new_array : list val -> val.

(** [x instanceof c] with the default [Symbol.hasInstance]: primitives
    are instances of no constructor. *)
Definition js_instanceof (v : val) (c : nat) : bool :=
  match v with VObj r => instance_of r c | _ => false end.

(** [`${v}`] *)
Definition template (v : val) : option string :=
  match v with
  | VUndefined => Some "undefined"
  | VNull => Some "null"
  | VBool b => Some (if b then "true" else "false")
  | VNum n => Some (Z_to_string n)
  | VStr s => Some s
  | VObj r => obj_to_string r
  end.

(** [constant(value)]; [input === value] is equality on [val]. *)
Definition constant (value : val) : transformer :=
  fun input =>
    if val_eqb input value then Some (valid_default input)
    else if String.eqb (typeof input) (typeof value) then
      match template input, template value with
      | Some si, Some sv =>
          Some (invalid input
                  ["Received input with value '" ++ si ++ "' where '" ++ sv ++ "' was expected"]
                  [] [new_CaptureSet []])
      | _, _ => None
      end
    else
      Some (failure ["Received input of type '" ++ typeof input ++ "' where '" ++
                     typeof value ++ "' was expected"] []).

(** [instance(constructor)] *)
Definition instance (c : ctor) : transformer :=
  match primitiveTypesByConstructor c with
  | Some type =>
      fun input =>
        if String.eqb (typeof input) type then Some (valid_default input)
        else Some (failure ["Received input of type '" ++ typeof input ++ "' where '" ++
                            type ++ "' was expected"] [])
  | None =>
      fun input =>
        if js_instanceof input (ctor_ref c) then Some (valid_default input)
        else Some (failure ["Received input was not an instance of " ++ ctor_name c ++ " "] [])
  end.

(** [xs.map(x => transform(x.input, x.transformer))], each result with its
    production context. *)
Fixpoint run_each (calls : list ((tid * transformer) * val))
  : option (list (option tid * result)) :=
  match calls with
  | [] => Some []
  | ((id, t), x) :: calls' =>
      match t x with
      | None => None
      | Some r =>
          match run_each calls' with
          | None => None
          | Some rs => Some ((Some id, r) :: rs)
          end
      end
  end.

(** [objectShape(pattern)]; [pattern] lists its properties in the order
    of [Object.keys(pattern)]. *)
Definition objectShape (pattern : list (string * (tid * transformer))) : transformer :=
  chain (instance ObjectCtor)
    [fun obj =>
       let keys := map fst pattern in
       match run_each (map (fun kp => (snd kp, prop obj (fst kp))) pattern) with
       | None => None
       | Some results =>
           mergeResults results
             (fun values => Some (valid_default (new_object (combine keys values))))
       end].

(** [objectCollection(transformer)] *)
Definition objectCollection (t : tid * transformer) : transformer :=
  chain (instance ObjectCtor)
    [fun obj =>
       match object_keys obj with
       | None => None
       | Some keys =>
           match run_each (map (fun k => (t, prop obj k)) keys) with
           | None => None
           | Some results =>
               mergeResults results
                 (fun values => Some (valid_default (new_object (combine keys values))))
           end
       end].

(** [arrayShape(pattern)], on a dense array. *)
Definition arrayShape (pattern : list (tid * transformer)) : transformer :=
  chain (instance ArrayCtor)
    [fun arr =>
       if negb (Nat.eqb (List.length (array_elems arr)) (List.length pattern)) then
         Some (failure ["Received input of length " ++
                        nat_to_string (List.length (array_elems arr)) ++
                        " where length " ++ nat_to_string (List.length pattern) ++
                        " was expected"] [])
       else
         match run_each (combine pattern (array_elems arr)) with
         | None => None
         | Some results =>
             mergeResults results (fun values => Some (valid_default (new_array values)))
         end].

(** [arrayCollection(transformer)], on a dense array. *)
Definition arrayCollection (t : tid * transformer) : transformer :=
  chain (instance ArrayCtor)
    [fun arr =>
       match run_each (map (fun x => (t, x)) (array_elems arr)) with
       | None => None
       | Some results =>
           mergeResults results (fun values => Some (valid_default (new_array values)))
       end].

End Heap.

End Pojo.

(** A small heap for examples: object 0 is a plain object without keys,
    object 1 an empty array, object 2 the array [1, 2]. *)
Module PojoDemo.

Import Algebra Pojo.

Local Open Scope string_scope.

Definition demo_instance_of (r c : nat) : bool :=
  match r with 0 => Nat.eqb c ObjectRef | _ => Nat.eqb c ArrayRef || Nat.eqb c ObjectRef end.
Definition demo_obj_to_string (r : nat) : option string := Some "[object Object]".
Definition demo_object_keys (v : val) : option (list string) :=
  match v with VObj 0 => Some [] | _ => None end.
Definition demo_prop (o : val) (k : string) : val := VUndefined.
Definition demo_array_elems (v : val) : list val :=
  match v with VObj 1 => [] | VObj 2 => [VNum 1; VNum 2] | _ => [] end.
Definition demo_new_object (kvs : list (string * val)) : val := VObj 10.
Definition demo_new_array (vs : list val) : val := VObj 11.

End PojoDemo.

(** * Properties of the result algebra and of capture sets *)
Module AlgebraFacts.

Import Algebra.

Lemma cross2_some (x y : list CaptureSet) :
  exists z, crossProductCaptures [x; y] = Some z.
Proof. destruct x; simpl; eauto. Qed.

Lemma cross_cons (foos : list CaptureSet) (rest : list (list CaptureSet)) :
  rest <> [] ->
  crossProductCaptures (foos :: rest) =
  match crossProductCaptures rest with
  | None => None
  | Some bars =>
      match foos with
      | [] => Some bars
      | _ => Some (flatMap foos (fun foo => map (fun bar => new_CaptureSet [foo; bar]) bars))
      end
  end.
Proof. destruct rest as [|r rest]; [congruence | reflexivity]. Qed.

Lemma flatMap_nil_right (foos : list CaptureSet) :
  flatMap foos (fun foo => map (fun bar => new_CaptureSet [foo; bar]) (@nil CaptureSet)) = [].
Proof. unfold flatMap; induction foos; simpl; auto. Qed.

(** The kind of a [bind] result: [Invalid] only with errors. *)
Lemma bind_invalid_has_errors (r : result) (f : val -> option result) (r' : result) :
  bind r f = Some r' -> isInvalid r' = true -> errors_of r' <> [].
Proof.
  destruct r as [v w cs | v e w cs | e w]; simpl;
    [ | | intros H; inversion H; subst; discriminate ];
  destruct (f v) as [n|]; try discriminate;
  destruct n as [nv nw ncs | nv ne nw ncs | ne nw];
  try (intros H; inversion H; subst; discriminate);
  destruct cs; simpl;
  try match goal with |- context [match ?l with [] => _ | _ :: _ => _ end] =>
    destruct l eqn:El end;
  intros H Hi; inversion H; subst; simpl in *; congruence.
Qed.

(** [crossProductCaptures] on zero and on one sibling list. *)
(** C7: crossProductCaptures throws when given zero sibling lists (it
    returns no result), and returns a single sibling list unchanged. *)
Theorem crossProductCaptures_zero_one :
  crossProductCaptures [] = None /\
  (forall l : list CaptureSet, crossProductCaptures [l] = Some l).
Proof. split; reflexivity. Qed.

(** C10: with at least two sibling lists, an empty first list is skipped
    (the product is that of the remaining lists), while an empty last list
    after non-empty siblings makes the product empty. *)
Theorem crossProductCaptures_empty_lists :
  (forall rest : list (list CaptureSet),
     rest <> [] -> crossProductCaptures ([] :: rest) = crossProductCaptures rest) /\
  (forall pre : list (list CaptureSet),
     pre <> [] -> Forall (fun l => l <> []) pre ->
     crossProductCaptures (pre ++ [[]]) = Some []).
Proof.
  split.
  - intros rest Hne. rewrite (cross_cons [] rest Hne).
    destruct (crossProductCaptures rest); reflexivity.
  - induction pre as [|x pre IH]; intros Hne Hall; [congruence|].
    inversion Hall as [|? ? Hx Hpre]; subst.
    rewrite <- app_comm_cons.
    rewrite (cross_cons x (pre ++ [[]])) by (destruct pre; discriminate).
    destruct pre as [|y pre'].
    + simpl. destruct x as [|c x]; [congruence|]. apply (f_equal Some).
      apply flatMap_nil_right.
    + rewrite IH by (discriminate || assumption).
      destruct x as [|c x]; [congruence|]. apply (f_equal Some).
      apply flatMap_nil_right.
Qed.

Lemma crossProductCaptures_empty_lists_witness :
  crossProductCaptures [[]; [emptyCaptureSet]] = Some [emptyCaptureSet] /\
  crossProductCaptures [[emptyCaptureSet]; []] = Some [].
Proof.
  split.
  - rewrite (proj1 crossProductCaptures_empty_lists [[emptyCaptureSet]]) by discriminate.
    reflexivity.
  - apply (proj2 crossProductCaptures_empty_lists [[emptyCaptureSet]]);
      [discriminate | repeat constructor; discriminate].
Defined.

(** C2: [bind] returns a Failure unchanged without consulting the
    continuation; otherwise it runs the continuation on the value, joins
    warnings and errors in order, keeps the joined diagnostics on a failing
    continuation, and else builds Invalid (errors present) or Valid (no
    errors) from the continuation's value and the crossed captures. *)
Theorem bind_spec (r : result) (f : val -> option result) :
  (forall e w, r = Failure e w ->
     bind r f = Some r /\ (forall g, bind r g = bind r f)) /\
  (forall v cs next, value_of r = Some v -> captures_of r = Some cs -> f v = Some next ->
     let warnings := warnings_of r ++ warnings_of next in
     let errors := errors_of r ++ errors_of next in
     (isFailure next = true -> bind r f = Some (failure errors warnings)) /\
     (forall nv ncs, value_of next = Some nv -> captures_of next = Some ncs ->
        exists captures,
          crossProductCaptures [cs; ncs] = Some captures /\
          bind r f = Some (match errors with
                           | [] => valid nv warnings captures
                           | _ :: _ => invalid nv errors warnings captures
                           end))).
Proof.
  split.
  - intros e w ->. split; reflexivity.
  - intros v cs next Hv Hcs Hf warnings errors.
    destruct r as [v0 w0 cs0 | v0 e0 w0 cs0 | e0 w0]; try discriminate;
    simpl in Hv, Hcs; inversion Hv; inversion Hcs; subst v0 cs0;
    unfold bind; rewrite Hf; split.
    + intros Hfail. destruct next; try discriminate. reflexivity.
    + intros nv ncs Hnv Hncs.
      destruct next as [nv0 nw ncs0 | nv0 ne nw ncs0 | ne nw]; try discriminate;
      simpl in Hnv, Hncs; inversion Hnv; inversion Hncs; subst nv0 ncs0;
      destruct (cross2_some cs ncs) as [z Hz]; exists z; split; auto; rewrite Hz;
      subst warnings errors; destruct (errors_of _ ++ errors_of _); reflexivity.
    + intros Hfail. destruct next; try discriminate. reflexivity.
    + intros nv ncs Hnv Hncs.
      destruct next as [nv0 nw ncs0 | nv0 ne nw ncs0 | ne nw]; try discriminate;
      simpl in Hnv, Hncs; inversion Hnv; inversion Hncs; subst nv0 ncs0;
      destruct (cross2_some cs ncs) as [z Hz]; exists z; split; auto; rewrite Hz;
      subst warnings errors; destruct (errors_of _ ++ errors_of _); reflexivity.
Qed.

Lemma bind_spec_witness :
  bind (Valid (VNum 1) ["w1"] [emptyCaptureSet])
       (fun _ => Some (Invalid (VNum 2) ["e2"] ["w2"] [emptyCaptureSet]))
  = Some (Invalid (VNum 2) ["e2"] ["w1"; "w2"] [new_CaptureSet [emptyCaptureSet; emptyCaptureSet]]).
Proof.
  destruct (proj2 (bind_spec (Valid (VNum 1) ["w1"] [emptyCaptureSet])
                    (fun _ => Some (Invalid (VNum 2) ["e2"] ["w2"] [emptyCaptureSet])))
              (VNum 1) [emptyCaptureSet] (Invalid (VNum 2) ["e2"] ["w2"] [emptyCaptureSet])
              eq_refl eq_refl eq_refl) as [_ H].
  destruct (H (VNum 2) [emptyCaptureSet] eq_refl eq_refl) as [z [Hz Hb]].
  rewrite Hb. simpl in Hz. inversion Hz. reflexivity.
Defined.

(** C9: when the captured transformer fails, [capture(key, t)] returns that
    very Failure, and no capture for the key is retrievable from it. *)
Theorem capture_of_failure (self : tid) (k : key) (t : transformer) (input : val)
  (e w : list string) :
  t input = Some (Failure e w) ->
  capture self k t input = Some (Failure e w) /\
  get (Failure e w) k = [] /\ getCanonical (Failure e w) k = None.
Proof. intros H. unfold capture. rewrite H. repeat split. Qed.

Lemma capture_of_failure_witness :
  capture 3 7 (fun _ => Some (failure ["bad"] [])) (VNum 1) = Some (Failure ["bad"] []) /\
  get (Failure ["bad"] []) 7 = [].
Proof.
  destruct (capture_of_failure 3 7 (fun _ => Some (failure ["bad"] [])) (VNum 1) ["bad"] []
              eq_refl) as [H1 [H2 _]].
  split; assumption.
Defined.

(** C1 (as stated): an Invalid built with the exported [invalid]
    constructor and its default [errors = []] has no error. *)
Lemma invalid_default_has_no_errors :
  isInvalid (invalid_default (VNum 1)) = true /\ errors_of (invalid_default (VNum 1)) = [].
Proof. split; reflexivity. Qed.

Lemma steps_invalid_has_errors (rest : list transformer) :
  forall (t : transformer) (o : option result) (r' : result),
  fold_left (fun o t => match o with None => None | Some lr => bind lr t end) (t :: rest) o
    = Some r' ->
  isInvalid r' = true -> errors_of r' <> [].
Proof.
  induction rest as [|t' rest IH]; intros t o r' H; simpl in H.
  - destruct o as [lr|]; [|discriminate]. exact (bind_invalid_has_errors lr t r' H).
  - exact (IH t' _ r' H).
Qed.

(** C1 (amended): a Failure has no value and no captures, a Valid has no
    errors and an Invalid has a value, for every result; the Invalid results
    returned by [bind], [capture], [mergeResults] and a chain of at least
    two stages have at least one error, while a one-stage [chain(t)]
    returns [t]'s result unchanged. *)
Theorem result_kind_invariants :
  (forall r : result,
     (isFailure r = true -> value_of r = None /\ captures_of r = None) /\
     (isValid r = true -> errors_of r = []) /\
     (isInvalid r = true -> value_of r <> None)) /\
  (forall r f r', bind r f = Some r' -> isInvalid r' = true -> errors_of r' <> []) /\
  (forall self k t input r',
     capture self k t input = Some r' -> isInvalid r' = true -> errors_of r' <> []) /\
  (forall results mapping r',
     mergeResults results mapping = Some r' -> isInvalid r' = true -> errors_of r' <> []) /\
  (forall first t rest input r',
     chain first (t :: rest) input = Some r' -> isInvalid r' = true -> errors_of r' <> []) /\
  (forall t input, chain t [] input = t input).
Proof.
  split; [|split; [|split; [|split; [|split]]]].
  - intros r. destruct r; simpl; repeat split; congruence.
  - exact bind_invalid_has_errors.
  - intros self k t input r'. unfold capture. destruct (t input) as [output|]; [|discriminate].
    apply bind_invalid_has_errors.
  - intros results mapping r'. unfold mergeResults.
    destruct (collect results [] []) as [values allCaptures].
    destruct (crossProductCaptures (map snd allCaptures)) as [captures|]; [|discriminate].
    destruct (Nat.eqb _ _).
    + destruct (mapping values) as [value|]; [|discriminate].
      destruct value as [? ? ? | ? ? ? ? | ? ?].
      * destruct (flatMap results _); apply bind_invalid_has_errors.
      * destruct (flatMap results _); apply bind_invalid_has_errors.
      * intros H; inversion H; subst; discriminate.
    + intros H; inversion H; subst; discriminate.
  - intros first t rest input r'. apply steps_invalid_has_errors.
  - intros t input. reflexivity.
Qed.

Lemma result_kind_invariants_witness :
  bind (Valid (VNum 1) [] [emptyCaptureSet]) (fun v => Some (invalid v ["e"] [] [emptyCaptureSet]))
    = Some (Invalid (VNum 1) ["e"] [] [emptyCaptureSet]) /\
  errors_of (Invalid (VNum 1) ["e"] [] [emptyCaptureSet]) <> [].
Proof.
  split; [reflexivity|].
  apply (proj1 (proj2 result_kind_invariants)
           (Valid (VNum 1) [] [emptyCaptureSet]) (fun v => Some (invalid v ["e"] [] [emptyCaptureSet])));
    reflexivity.
Defined.

(** C3: [mergeResults] throws (an [Error] from [crossProductCaptures])
    whenever the first result is a Failure, instead of returning a Failure
    with the accumulated diagnostics. *)
Theorem mergeResults_leading_failure_throws (ctx : option tid) (e w : list string)
  (rest : list (option tid * result)) (mapping : list val -> option result) :
  mergeResults ((ctx, Failure e w) :: rest) mapping = None.
Proof. reflexivity. Qed.

(** With a non-failing result first, the Failure with all diagnostics is
    returned and [mapping] is not used. *)
Lemma mergeResults_later_failure (ctx1 ctx2 : option tid) (v : val) (w1 : list string)
  (cs : list CaptureSet) (e w : list string) (mapping : list val -> option result) :
  mergeResults [(ctx1, Valid v w1 cs); (ctx2, Failure e w)] mapping =
  Some (failure e (w1 ++ w)).
Proof. unfold mergeResults, flatMap. simpl. rewrite ?app_nil_r. reflexivity. Qed.

Lemma bind_view (r : result) (f : val -> option result) :
  option_map observe (bind r f) =
  match value_of r with
  | None => Some (observe r)
  | Some v =>
      match f v with
      | None => None
      | Some n => Some (value_of n, warnings_of r ++ warnings_of n, errors_of r ++ errors_of n)
      end
  end.
Proof.
  destruct r as [v w cs | v e w cs | e w]; [ | | reflexivity]; unfold bind;
  simpl (value_of _); lazy beta iota; destruct (f v) as [n|]; try reflexivity;
  destruct n as [nv nw ncs | nv ne nw ncs | ne nw]; try reflexivity;
  destruct cs; simpl;
  try match goal with |- context [match ?l with [] => _ | _ :: _ => _ end] =>
    destruct l eqn:E end; unfold observe, valid, invalid, failure; simpl; congruence.
Qed.

(** One step of [chain]'s [reduce]. *)
Lemma step_view (o : option result) (t : transformer) :
  option_map observe (match o with None => None | Some lr => bind lr t end) =
  match option_map observe o with
  | None => None
  | Some (None, w, e) => Some (None, w, e)
  | Some (Some v, w, e) =>
      match t v with
      | None => None
      | Some n => Some (value_of n, w ++ warnings_of n, e ++ errors_of n)
      end
  end.
Proof.
  destruct o as [r|]; [|reflexivity]. rewrite bind_view. simpl.
  destruct r; reflexivity.
Qed.

Lemma diag_observe (o : option result) :
  diag o = option_map (fun x => (snd (fst x), snd x)) (option_map observe o).
Proof. destruct o; reflexivity. Qed.

Lemma chain_view (first : transformer) (rest : list transformer) (input : val) :
  chain first rest input =
  fold_left (fun o t => match o with None => None | Some lr => bind lr t end) rest (first input).
Proof. reflexivity. Qed.

(** C8: the warnings and errors of a three-stage chain are those of its
    stages in stage order, however the chain is grouped. *)
Theorem chain_diagnostics_grouping (a b c : transformer) (input : val) :
  diag (chain a [b; c] input) = stage_diagnostics a b c input /\
  diag (chain (chain a [b]) [c] input) = stage_diagnostics a b c input /\
  diag (chain a [chain b [c]] input) = stage_diagnostics a b c input.
Proof.
  assert (Habc : diag (chain a [b; c] input) = stage_diagnostics a b c input).
  { rewrite diag_observe, chain_view. simpl fold_left.
    rewrite step_view, step_view. unfold stage_diagnostics.
    destruct (a input) as [ra|]; [|reflexivity]. simpl.
    destruct (value_of ra) as [va|]; [|reflexivity].
    destruct (b va) as [rb|]; [|reflexivity]. simpl.
    destruct (value_of rb) as [vb|]; [|reflexivity].
    destruct (c vb) as [rc|]; [|reflexivity]. simpl.
    rewrite !app_assoc. reflexivity. }
  split; [exact Habc|split].
  - exact Habc.
  - rewrite <- Habc. rewrite !diag_observe, !chain_view. simpl fold_left.
    rewrite !step_view.
    destruct (a input) as [ra|]; [|reflexivity]. simpl.
    destruct (value_of ra) as [va|]; [|reflexivity].
    rewrite chain_view. simpl fold_left.
    destruct (b va) as [rb|]; [|reflexivity].
    pose proof (bind_view rb c) as Hv.
    destruct (value_of rb) as [vb|].
    + destruct (c vb) as [rc|]; destruct (bind rb c) as [n|]; simpl in Hv;
        try discriminate; [|reflexivity].
      injection Hv as Hvn Hwn Hen. simpl.
      rewrite Hwn, Hen, !app_assoc. reflexivity.
    + destruct (bind rb c) as [n|]; simpl in Hv; try discriminate.
      injection Hv as Hvn Hwn Hen. simpl. rewrite Hwn, Hen. reflexivity.
Qed.

(** ** Capture sets *)

Lemma set_has_add (k k' : key) (o : list key) :
  set_has k (set_add k' o) = set_has k o || Nat.eqb k k'.
Proof.
  unfold set_add, set_has. destruct (existsb (Nat.eqb k') o) eqn:E.
  - destruct (Nat.eqb_spec k k'); [subst; rewrite E|]; now rewrite ?orb_true_r, ?orb_false_r.
  - rewrite existsb_app. simpl. now rewrite orb_false_r.
Qed.

Lemma map_get_delete (k k' : key) (d : list (key * Capture)) :
  map_get k (map_delete k' d) = if Nat.eqb k k' then None else map_get k d.
Proof.
  unfold map_delete. induction d as [|[k0 v0] d IH]; simpl.
  - destruct (Nat.eqb k k'); reflexivity.
  - destruct (Nat.eqb_spec k' k0); simpl.
    + subst. rewrite IH. destruct (Nat.eqb_spec k k0); reflexivity.
    + rewrite IH. destruct (Nat.eqb_spec k k0); destruct (Nat.eqb_spec k k'); subst;
        congruence.
Qed.

Lemma map_get_app (k k' : key) (c : Capture) (d : list (key * Capture)) :
  map_get k (d ++ [(k', c)]) =
  match map_get k d with Some x => Some x | None => if Nat.eqb k k' then Some c else None end.
Proof.
  induction d as [|[k0 v0] d IH]; simpl; [reflexivity|].
  destruct (Nat.eqb k k0); [reflexivity | exact IH].
Qed.

Lemma map_has_get (k : key) (d : list (key * Capture)) :
  map_has k d = true <-> map_get k d <> None.
Proof. unfold map_has. destruct (map_get k d); split; congruence. Qed.

Lemma map_has_in (k : key) (d : list (key * Capture)) :
  map_has k d = true -> exists kv, In kv d /\ fst kv = k.
Proof.
  unfold map_has. induction d as [|[k0 v0] d IH]; simpl; [discriminate|].
  destruct (Nat.eqb_spec k k0).
  - subst. intros _. exists (k0, v0). auto.
  - intros H. destruct (IH H) as [kv [Hin Hk]]. eauto.
Qed.

Lemma add_same_key (k : key) (c : Capture) (s : CaptureSet) :
  key_absent k s \/ key_defined k s \/ key_overloaded k s ->
  (key_absent k s -> CaptureSet_get k (CaptureSet_add k c s) = Some c /\
                     key_defined k (CaptureSet_add k c s)) /\
  (key_defined k s \/ key_overloaded k s -> key_overloaded k (CaptureSet_add k c s)).
Proof.
  destruct s as [o d]. unfold key_absent, key_defined, key_overloaded, CaptureSet_get,
    CaptureSet_add; simpl. intros _. split.
  - intros [Ho Hd]. rewrite Ho. unfold map_has. rewrite Hd. simpl.
    rewrite map_get_app, Hd, Nat.eqb_refl. auto.
  - intros [[Ho Hd] | [Ho Hd]].
    + rewrite Ho, Hd. simpl. rewrite set_has_add, map_get_delete, Nat.eqb_refl.
      rewrite orb_true_r. auto.
    + rewrite Ho. simpl. auto.
Qed.

Lemma add_other_key (k k' : key) (c : Capture) (s : CaptureSet) :
  k <> k' ->
  (key_absent k s -> key_absent k (CaptureSet_add k' c s)) /\
  (key_defined k s -> key_defined k (CaptureSet_add k' c s)) /\
  (key_overloaded k s -> key_overloaded k (CaptureSet_add k' c s)).
Proof.
  intros Hne. apply Nat.eqb_neq in Hne.
  destruct s as [o d]. unfold key_absent, key_defined, key_overloaded, CaptureSet_get,
    CaptureSet_add; simpl.
  destruct (set_has k' o); [auto|].
  destruct (map_has k' d); simpl;
    rewrite ?set_has_add, ?map_get_delete, ?map_get_app, ?Hne, ?orb_false_r;
    (split; [|split]); intros [H1 H2]; rewrite ?H1, ?H2; (split; [reflexivity|]);
    rewrite ?map_get_delete, ?map_get_app, ?Hne; auto;
    apply map_has_get; apply map_has_get in H2;
    rewrite ?map_get_delete, ?map_get_app, ?Hne;
    destruct (map_get k d); congruence.
Qed.

Lemma add_any_key (k k' : key) (c : Capture) (s : CaptureSet) :
  (key_overloaded k s -> key_overloaded k (CaptureSet_add k' c s)) /\
  (key_defined k s \/ key_overloaded k s ->
   key_defined k (CaptureSet_add k' c s) \/ key_overloaded k (CaptureSet_add k' c s)) /\
  (key_absent k s \/ key_overloaded k s -> k <> k' ->
   key_absent k (CaptureSet_add k' c s) \/ key_overloaded k (CaptureSet_add k' c s)).
Proof.
  destruct (Nat.eq_dec k k') as [<-|Hne].
  - split; [|split].
    + intros H. apply (add_same_key k c s); auto.
    + intros H. right. apply (add_same_key k c s); auto.
    + intros _ H; congruence.
  - destruct (add_other_key k k' c s Hne) as [Ha [Hd Ho]].
    split; [auto|split]; intros [H|H]; auto.
Qed.

Lemma adds_overloaded (k : key) (kvs : list (key * Capture)) (s : CaptureSet) :
  key_overloaded k s ->
  key_overloaded k (fold_left (fun s kv => CaptureSet_add (fst kv) (snd kv) s) kvs s).
Proof.
  revert s. induction kvs as [|kv kvs IH]; simpl; auto.
  intros s H. apply IH. apply (add_any_key k (fst kv) (snd kv) s). exact H.
Qed.

Lemma adds_keep (k : key) (kvs : list (key * Capture)) (s : CaptureSet) :
  key_defined k s \/ key_overloaded k s ->
  let s' := fold_left (fun s kv => CaptureSet_add (fst kv) (snd kv) s) kvs s in
  key_defined k s' \/ key_overloaded k s'.
Proof.
  revert s. induction kvs as [|kv kvs IH]; simpl; auto.
  intros s H. apply IH. apply (add_any_key k (fst kv) (snd kv) s). exact H.
Qed.

Lemma adds_other (k : key) (kvs : list (key * Capture)) (s : CaptureSet) :
  (forall kv, In kv kvs -> fst kv <> k) ->
  key_absent k s \/ key_overloaded k s ->
  let s' := fold_left (fun s kv => CaptureSet_add (fst kv) (snd kv) s) kvs s in
  key_absent k s' \/ key_overloaded k s'.
Proof.
  revert s. induction kvs as [|kv kvs IH]; simpl; auto.
  intros s Hk H. apply IH; [intros; apply Hk; auto|].
  apply (add_any_key k (fst kv) (snd kv) s); [exact H|].
  intros E. apply (Hk kv); auto.
Qed.

Lemma adds_reach (k : key) (kvs : list (key * Capture)) (s : CaptureSet) :
  (exists kv, In kv kvs /\ fst kv = k) ->
  (key_absent k s \/ key_defined k s \/ key_overloaded k s ->
   let s' := fold_left (fun s kv => CaptureSet_add (fst kv) (snd kv) s) kvs s in
   key_defined k s' \/ key_overloaded k s') /\
  (key_defined k s \/ key_overloaded k s ->
   key_overloaded k (fold_left (fun s kv => CaptureSet_add (fst kv) (snd kv) s) kvs s)).
Proof.
  revert s. induction kvs as [|kv kvs IH]; simpl; intros s [kv0 [Hin Hk]]; [contradiction|].
  destruct Hin as [->|Hin].
  - destruct kv0 as [k0 c0]. simpl in Hk |- *. subst k0.
    pose proof (add_same_key k c0 s) as Hs. split.
    + intros H. apply adds_keep.
      destruct H as [H|[H|H]]; [left|right|right]; apply Hs; auto.
    + intros H. apply adds_overloaded. apply Hs; auto.
  - destruct (IH (CaptureSet_add (fst kv) (snd kv) s)) as [IH1 IH2]; [eauto|].
    split.
    + intros H. destruct (Nat.eq_dec k (fst kv)) as [E|E].
      * apply IH1. right. rewrite E.
        destruct (add_same_key (fst kv) (snd kv) s) as [Ha Hd]; [rewrite <- E; exact H|].
        rewrite <- E in *. destruct H as [H|[H|H]]; [left; apply Ha | right; apply Hd | right; apply Hd];
          auto.
      * apply IH1. destruct (add_other_key k (fst kv) (snd kv) s E) as [Ha [Hd Ho]].
        destruct H as [H|[H|H]]; auto.
    + intros H. apply IH2. apply (add_any_key k (fst kv) (snd kv) s). exact H.
Qed.

(** The loop over a child's overloaded keys. *)
Lemma overloaded_fold (ks : list key) (s : CaptureSet) :
  definedKeys (fold_left (fun s k => mkCaptureSet (set_add k (overloadedKeys s)) (definedKeys s)) ks s)
    = definedKeys s /\
  (forall k, set_has k (overloadedKeys
       (fold_left (fun s k => mkCaptureSet (set_add k (overloadedKeys s)) (definedKeys s)) ks s))
     = set_has k (overloadedKeys s) || set_has k ks).
Proof.
  revert s. induction ks as [|k0 ks IH]; intros s; simpl.
  - split; [reflexivity|]. intros k. now rewrite orb_false_r.
  - destruct (IH (mkCaptureSet (set_add k0 (overloadedKeys s)) (definedKeys s))) as [H1 H2].
    split; [exact H1|]. intros k. rewrite H2. simpl. rewrite set_has_add.
    unfold set_has at 3. simpl. now rewrite orb_assoc.
Qed.

Lemma map_get_none_in (k : key) (d : list (key * Capture)) :
  map_has k d = false -> forall kv, In kv d -> fst kv <> k.
Proof.
  unfold map_has. induction d as [|[k0 v0] d IH]; simpl; [contradiction|].
  destruct (Nat.eqb_spec k k0); [discriminate|].
  intros H kv [<-|Hin]; simpl; auto.
Qed.


Lemma merge_child_overloaded (k : key) (s ch : CaptureSet) :
  key_overloaded k s \/ (CaptureSet_get k s = None /\ set_has k (overloadedKeys ch) = true) ->
  key_overloaded k (merge_child s ch).
Proof.
  intros H. unfold merge_child. apply adds_overloaded.
  destruct (overloaded_fold (overloadedKeys ch) s) as [Hd Ho].
  unfold key_overloaded, CaptureSet_get in *. rewrite Hd, Ho.
  destruct H as [[H1 H2]|[H1 H2]]; rewrite ?H1, ?H2; rewrite ?orb_true_r; auto.
Qed.










(** ** Canonical captures *)

Lemma same_capture_ref (c1 c2 : Capture) :
  same_capture c1 c2 = true <-> capture_ref c1 = capture_ref c2.
Proof.
  unfold same_capture. destruct (capture_ref c1) as [p1 i1], (capture_ref c2) as [p2 i2].
  rewrite andb_true_iff, Nat.eqb_eq. unfold val_eqb.
  destruct (val_eq_dec i1 i2); split; intros H; try (inversion H; subst); intuition congruence.
Qed.

Lemma filter_just_in (l : list (option Capture)) (c : Capture) :
  In c (filter_just l) <-> In (Some c) l.
Proof.
  unfold filter_just, flatMap. induction l as [|o l IH]; simpl; [tauto|].
  rewrite in_app_iff, IH. destruct o as [c'|]; simpl; intuition congruence.
Qed.

Lemma new_Set_sub (l acc : list Capture) (x : Capture) :
  In x (fold_left (fun acc c => if existsb (same_capture c) acc then acc else acc ++ [c]) l acc) ->
  In x acc \/ In x l.
Proof.
  revert acc. induction l as [|c l IH]; simpl; intros acc H; auto.
  destruct (IH _ H) as [H1|H1]; auto.
  destruct (existsb (same_capture c) acc); auto.
  apply in_app_iff in H1. destruct H1 as [H1|[<-|[]]]; auto.
Qed.

Lemma new_Set_cover (l acc : list Capture) (y : Capture) :
  In y l \/ In y acc ->
  exists x, In x (fold_left (fun acc c => if existsb (same_capture c) acc then acc else acc ++ [c]) l acc)
            /\ capture_ref x = capture_ref y.
Proof.
  revert acc y. induction l as [|c l IH]; simpl; intros acc y H.
  - destruct H as [[]|H]. eauto.
  - destruct (existsb (same_capture c) acc) eqn:E.
    + destruct H as [[<-|H]|H]; auto.
      apply existsb_exists in E. destruct E as [x [Hx Hs]].
      apply same_capture_ref in Hs.
      destruct (IH acc x (or_intror Hx)) as [x' [Hx' Hr]]. exists x'. split; congruence.
    + apply IH. destruct H as [[<-|H]|H]; rewrite ?in_app_iff; simpl; auto.
Qed.

Lemma new_Set_nodup (l acc : list Capture) :
  NoDup (map capture_ref acc) ->
  NoDup (map capture_ref
    (fold_left (fun acc c => if existsb (same_capture c) acc then acc else acc ++ [c]) l acc)).
Proof.
  revert acc. induction l as [|c l IH]; simpl; intros acc H; auto.
  apply IH. destruct (existsb (same_capture c) acc) eqn:E; auto.
  rewrite map_app. apply NoDup_app; auto; [repeat constructor; simpl; tauto|].
  intros r Hr [Hc|[]]. apply in_map_iff in Hr. destruct Hr as [x [Hx Hin]].
  assert (existsb (same_capture c) acc = true) as E'.
  { apply existsb_exists. exists x. split; auto. apply same_capture_ref. congruence. }
  congruence.
Qed.

(** C6 (as stated): two executions of [capture] with the same input and
    the same output are two capture objects: held in two worlds of a
    result they leave no canonical capture, and intersected on one input
    (one merge scope) neither do they. *)
Lemma getCanonical_same_value_twice :
  let i := VNum 4 in
  let o := valid_default i in
  let c1 := mkCapture 1 i o in
  let c2 := mkCapture 2 i o in
  get (valid i [] [CaptureSet_add 7 c1 emptyCaptureSet;
                   CaptureSet_add 7 c2 emptyCaptureSet]) 7 = [Some c1; Some c2] /\
  getCanonical (valid i [] [CaptureSet_add 7 c1 emptyCaptureSet;
                            CaptureSet_add 7 c2 emptyCaptureSet]) 7 = None /\
  option_map (fun r => getCanonical r 7) (capture 1 7 accept i)
    = Some (Some (mkCapture 1 i o)) /\
  option_map (fun r => getCanonical r 7) (capture 2 7 accept i)
    = Some (Some (mkCapture 2 i o)) /\
  option_map (fun r => getCanonical r 7)
    (intersection [(1, capture 1 7 accept); (2, capture 2 7 accept)] i) = Some None.
Proof. repeat split. Qed.

(** C6 (amended): [getCanonical(r, k)] returns a capture exactly when the
    non-absent lookups of [k] hold one capture object (by reference
    identity) and absent when they hold none or several; two capture sets
    that both define [k], merged into one, resolve it to absent. *)
Theorem getCanonical_spec (r : result) (k : key) :
  (forall c, getCanonical r k = Some c ->
     In (Some c) (get r k) /\
     (forall c', In (Some c') (get r k) -> capture_ref c' = capture_ref c)) /\
  (forall c, In (Some c) (get r k) ->
     (forall c', In (Some c') (get r k) -> capture_ref c' = capture_ref c) ->
     exists c0, getCanonical r k = Some c0 /\ capture_ref c0 = capture_ref c) /\
  ((forall c, ~ In (Some c) (get r k)) -> getCanonical r k = None) /\
  (forall c1 c2, In (Some c1) (get r k) -> In (Some c2) (get r k) ->
     capture_ref c1 <> capture_ref c2 -> getCanonical r k = None) /\
  (forall foo bar v w,
     map_has k (definedKeys foo) = true -> map_has k (definedKeys bar) = true ->
     set_has k (overloadedKeys bar) = false ->
     CaptureSet_get k (new_CaptureSet [foo; bar]) = None /\
     getCanonical (Valid v w [new_CaptureSet [foo; bar]]) k = None).
Proof.
  assert (Hsome : forall c, getCanonical r k = Some c ->
     In (Some c) (get r k) /\
     (forall c', In (Some c') (get r k) -> capture_ref c' = capture_ref c)).
  { intros c. unfold getCanonical, new_Set.
    destruct (fold_left _ (filter_just (get r k)) []) as [|x [|y rest]] eqn:E;
      try discriminate.
    intros H. inversion H; subst x. split.
    - apply filter_just_in. destruct (new_Set_sub (filter_just (get r k)) [] c) as [[]|H1];
        [rewrite E; left; reflexivity | exact H1].
    - intros c' Hc'. apply filter_just_in in Hc'.
      destruct (new_Set_cover (filter_just (get r k)) [] c' (or_introl Hc')) as [x [Hx Hr]].
      rewrite E in Hx. destruct Hx as [<-|[]]. congruence. }
  split; [exact Hsome|split; [|split; [|split]]].
  - intros c Hc Hall. apply filter_just_in in Hc.
    unfold getCanonical, new_Set.
    pose proof (new_Set_nodup (filter_just (get r k)) [] (NoDup_nil _)) as Hnd.
    destruct (new_Set_cover (filter_just (get r k)) [] c (or_introl Hc)) as [x [Hx Hr]].
    destruct (fold_left _ (filter_just (get r k)) []) as [|x1 [|x2 rest]] eqn:E.
    + destruct Hx.
    + destruct Hx as [<-|[]]. eauto.
    + exfalso. assert (Href : forall z, In z (x1 :: x2 :: rest) -> capture_ref z = capture_ref c).
      { intros z Hz. rewrite <- E in Hz. apply new_Set_sub in Hz.
        destruct Hz as [[]|Hz]. apply Hall, filter_just_in, Hz. }
      simpl in Hnd. inversion Hnd as [|? ? Hn _]; subst. apply Hn.
      left. rewrite (Href x1), (Href x2); simpl; auto.
  - intros Hnone. destruct (getCanonical r k) as [c|] eqn:E; auto.
    exfalso. apply (Hnone c). apply (Hsome c eq_refl).
  - intros c1 c2 H1 H2 Hne. destruct (getCanonical r k) as [c|] eqn:E; auto.
    destruct (Hsome c eq_refl) as [_ Hall]. exfalso. apply Hne.
    rewrite (Hall c1 H1), (Hall c2 H2). reflexivity.
  - intros foo bar v w Hfoo Hbar Hob.
    assert (Hs : key_overloaded k (new_CaptureSet [foo; bar])).
    { unfold new_CaptureSet. simpl. unfold merge_child at 1.
      apply (proj2 (adds_reach k (definedKeys bar) _ (map_has_in k _ Hbar))).
      destruct (overloaded_fold (overloadedKeys bar) (merge_child emptyCaptureSet foo))
        as [Hd Ho].
      assert (H1 : key_defined k (merge_child emptyCaptureSet foo) \/
                   key_overloaded k (merge_child emptyCaptureSet foo)).
      { unfold merge_child.
        apply (proj1 (adds_reach k (definedKeys foo) _ (map_has_in k _ Hfoo))).
        destruct (overloaded_fold (overloadedKeys foo) emptyCaptureSet) as [Hd' Ho'].
        unfold key_absent, key_defined, key_overloaded, CaptureSet_get.
        rewrite Hd', Ho'. simpl.
        destruct (set_has k (overloadedKeys foo)); auto. }
      unfold key_defined, key_overloaded, CaptureSet_get in *. rewrite Hd, Ho, Hob, orb_false_r.
      exact H1. }
    destruct Hs as [_ Hg]. split; [exact Hg|].
    unfold getCanonical, get. simpl. rewrite Hg. reflexivity.
Qed.

Lemma getCanonical_spec_witness :
  let c1 := mkCapture 1 (VNum 4) (valid_default (VNum 4)) in
  let c2 := mkCapture 2 (VNum 4) (valid_default (VNum 4)) in
  getCanonical (Valid (VNum 4) []
     [CaptureSet_add 7 c1 emptyCaptureSet; CaptureSet_add 7 c2 emptyCaptureSet]) 7 = None.
Proof.
  intros c1 c2.
  apply (proj1 (proj2 (proj2 (proj2 (getCanonical_spec
    (Valid (VNum 4) [] [CaptureSet_add 7 c1 emptyCaptureSet; CaptureSet_add 7 c2 emptyCaptureSet])
    7)))) c1 c2); simpl; auto.
  discriminate.
Defined.

End AlgebraFacts.

(** * Memoisation in the traversal engine *)
Module TraversalFacts.

Import Algebra Traversal.

Lemma pair_eqb_eq (p q : pair) : pair_eqb p q = true <-> p = q.
Proof.
  destruct p as [t1 i1], q as [t2 i2]. unfold pair_eqb, val_eqb; simpl.
  rewrite andb_true_iff, Nat.eqb_eq.
  destruct (val_eq_dec i1 i2); split; intros H; try (inversion H; subst);
    intuition congruence.
Qed.

Lemma pair_eqb_refl (p : pair) : pair_eqb p p = true.
Proof. apply pair_eqb_eq; reflexivity. Qed.

Lemma existsb_pair_false (p : pair) (l : list pair) :
  existsb (pair_eqb p) l = false -> ~ In p l.
Proof.
  intros H Hin. assert (existsb (pair_eqb p) l = true) as E; [|congruence].
  apply existsb_exists. exists p. split; auto using pair_eqb_refl.
Qed.

Lemma inflight_from_app (st : list pair) (l1 l2 : list event) :
  inflight_from st (l1 ++ l2) = inflight_from (inflight_from st l1) l2.
Proof.
  revert st. induction l1 as [|e l1 IH]; intros st; simpl; auto.
  destruct e; apply IH.
Qed.

Lemma reentry_free_from_app (st : list pair) (l1 l2 : list event) :
  reentry_free_from st (l1 ++ l2) =
  reentry_free_from st l1 && reentry_free_from (inflight_from st l1) l2.
Proof.
  revert st. induction l1 as [|e l1 IH]; intros st; simpl; auto.
  destruct e; rewrite ?IH; auto. rewrite andb_assoc. reflexivity.
Qed.

Lemma reentry_prefix (st : list pair) (l1 l2 : list event) :
  reentry_free_from st (l1 ++ l2) = true -> reentry_free_from st l1 = true.
Proof. rewrite reentry_free_from_app, andb_true_iff. tauto. Qed.

Lemma count_enter_app (p : pair) (l1 l2 : list event) :
  count_enter p (l1 ++ l2) = count_enter p l1 + count_enter p l2.
Proof. unfold count_enter. rewrite filter_app, length_app. reflexivity. Qed.

Lemma count_enter_notin (p : pair) (l : list event) :
  ~ In (Enter p) l -> count_enter p l = 0.
Proof.
  unfold count_enter. induction l as [|e l IH]; simpl; intros H; auto.
  destruct e as [q r|q|q r]; try (apply IH; tauto).
  destruct (pair_eqb q p) eqn:E.
  - apply pair_eqb_eq in E. subst. tauto.
  - apply IH. tauto.
Qed.

Lemma count_enter_in (p : pair) (l : list event) :
  count_enter p l = 0 -> ~ In (Enter p) l.
Proof.
  unfold count_enter. induction l as [|e l IH]; simpl; intros H Hin; auto.
  destruct Hin as [->|Hin].
  - rewrite pair_eqb_refl in H. discriminate.
  - destruct e as [q r|q|q r]; try (apply IH; auto).
    destruct (pair_eqb q p); [discriminate | auto].
Qed.

Lemma responses_in (p : pair) (r : ref) (l : list event) :
  In r (responses p l) -> In (Hit p r) l \/ In (Exit p r) l.
Proof.
  unfold responses. rewrite in_flat_map. intros [e [He Hr]].
  destruct e as [q r'|q|q r']; try destruct Hr.
  - destruct (pair_eqb q p) eqn:E; [|destruct Hr].
    apply pair_eqb_eq in E. destruct Hr as [<-|[]]. subst. auto.
  - destruct (pair_eqb q p) eqn:E; [|destruct Hr].
    apply pair_eqb_eq in E. destruct Hr as [<-|[]]. subst. auto.
Qed.

Lemma cache_get_cons (p q : pair) (r : ref) (c : list (pair * ref)) :
  cache_get q ((p, r) :: c) = if pair_eqb q p then Some r else cache_get q c.
Proof. reflexivity. Qed.

Section Runs.

Context {D : Type}.
Variable body : tid -> val -> prog D.
Variable st0 : list pair.

Lemma exec_ext (request : tid -> val -> state D -> option (ref * state D))
  (Hreq : forall t i s r s', request t i s = Some (r, s') ->
            exists ext, log s' = log s ++ ext) :
  forall (pr : prog D) s r s', exec request pr s = Some (r, s') ->
  exists ext, log s' = log s ++ ext.
Proof.
  induction pr as [r0|t i k IH|d k IH|r0 k IH]; simpl; intros s r s' H.
  - inversion H; subst. exists []. rewrite app_nil_r. reflexivity.
  - destruct (request t i s) as [[r1 s1]|] eqn:E; [|discriminate].
    destruct (Hreq _ _ _ _ _ E) as [e1 H1].
    destruct (IH _ _ _ _ H) as [e2 H2]. exists (e1 ++ e2).
    rewrite H2, H1, app_assoc. reflexivity.
  - apply IH in H. exact H.
  - apply IH in H. exact H.
Qed.

Lemma transform_ext (fuel : nat) :
  forall t i s r s', transform body fuel t i s = Some (r, s') ->
  exists ext, log s' = log s ++ ext.
Proof.
  induction fuel as [|fuel IH]; simpl; intros t i s r s' H; [discriminate|].
  destruct (cache_get (t, i) (cache s)) as [bar|].
  - inversion H; subst. eexists. reflexivity.
  - destruct (exec (transform body fuel) (body t i) (log_event (Enter (t, i)) s))
      as [[r2 s2]|] eqn:E; [|discriminate].
    inversion H; subst. simpl.
    destruct (exec_ext _ IH _ _ _ _ E) as [e2 H2]. simpl in H2.
    exists ([Enter (t, i)] ++ e2 ++ [Exit (t, i) r]).
    rewrite H2, !app_assoc. reflexivity.
Qed.

Lemma step_post_refl (s : state D) : inv st0 s -> step_post st0 s s.
Proof. unfold step_post. auto. Qed.

Lemma step_post_trans (s1 s2 s3 : state D) :
  step_post st0 s1 s2 -> step_post st0 s2 s3 -> step_post st0 s1 s3.
Proof.
  unfold step_post. intros [_ [E1 M1]] [I3 [E2 M2]].
  split; [exact I3|split; [congruence|auto]].
Qed.

Lemma inv_same (s s' : state D) :
  cache s' = cache s -> log s' = log s -> inv st0 s -> inv st0 s'.
Proof. unfold inv. intros -> ->. auto. Qed.

Lemma exec_inv (request : tid -> val -> state D -> option (ref * state D))
  (Hreq_ext : forall t i s r s', request t i s = Some (r, s') ->
                exists ext, log s' = log s ++ ext)
  (Hreq : forall t i s r s', request t i s = Some (r, s') ->
            inv st0 s -> reentry_free_from st0 (log s') = true ->
            step_post st0 s s') :
  forall (pr : prog D) s r s', exec request pr s = Some (r, s') ->
  inv st0 s -> reentry_free_from st0 (log s') = true -> step_post st0 s s'.
Proof.
  induction pr as [r0|t i k IH|d k IH|r0 k IH]; simpl; intros s r s' H Hi Hr.
  - inversion H; subst. apply step_post_refl; auto.
  - destruct (request t i s) as [[r1 s1]|] eqn:E; [|discriminate].
    destruct (exec_ext _ Hreq_ext _ _ _ _ H) as [e2 H2].
    assert (Hr1 : reentry_free_from st0 (log s1) = true).
    { rewrite H2 in Hr. eapply reentry_prefix; eauto. }
    pose proof (Hreq _ _ _ _ _ E Hi Hr1) as P1.
    apply (step_post_trans s s1); auto.
    apply (IH r1 _ _ _ H); auto. apply P1.
  - set (s1 := mkState (cache s) (heap s ++ [d]) (productionContext s) (log s)).
    assert (P : step_post st0 s s1).
    { unfold step_post. split; [apply (inv_same s); auto | split; auto]. }
    apply (step_post_trans s s1); auto.
    apply (IH _ _ _ _ H); auto.
  - apply (IH _ _ _ _ H); auto.
Qed.

Lemma transform_inv (fuel : nat) :
  forall t i s r s', transform body fuel t i s = Some (r, s') ->
  inv st0 s -> reentry_free_from st0 (log s') = true -> step_post st0 s s'.
Proof.
  induction fuel as [|fuel IH]; simpl; intros t i s r s' H Hi Hr; [discriminate|].
  destruct Hi as [I1 [I2 [I3 [I4 I5]]]].
  destruct (cache_get (t, i) (cache s)) as [bar|] eqn:Hc.
  - (* cache hit *)
    inversion H; subst; clear H.
    unfold step_post, inv, log_event; simpl.
    rewrite inflight_from_app. simpl.
    split; [|split; auto].
    split; [|split; [|split; [|split]]].
    + intros p r0 [Hin|Hin]; apply in_app_iff in Hin; destruct Hin as [Hin|[He|[]]];
        try (apply I1; auto; fail); inversion He; subst; auto.
    + exact I2.
    + intros p Hin. apply in_app_iff in Hin.
      destruct Hin as [Hin|[He|[]]]; [auto|discriminate].
    + intros p. rewrite count_enter_app. specialize (I4 p).
      unfold count_enter at 2; simpl. lia.
    + intros p Hp. destruct (I5 p Hp) as [A B]. split; auto.
      rewrite in_app_iff. intros [C|[C|[]]]; [auto|discriminate].
  - (* cache miss: the transformer is invoked *)
    destruct (exec (transform body fuel) (body t i) (log_event (Enter (t, i)) s))
      as [[r2 s2]|] eqn:E; [|discriminate].
    inversion H; subst; clear H. simpl in Hr.
    set (F := inflight_from st0 (log s)) in *.
    destruct (exec_ext _ (transform_ext fuel) _ _ _ _ E) as [e2 H2]. simpl in H2.
    assert (Hr2 : reentry_free_from st0 (log s2) = true)
      by (eapply reentry_prefix; eauto).
    assert (Hnot : ~ In (t, i) F).
    { rewrite H2 in Hr2. apply reentry_prefix in Hr2.
      rewrite reentry_free_from_app in Hr2. apply andb_true_iff in Hr2.
      destruct Hr2 as [_ Hr2]. simpl in Hr2. rewrite andb_true_r in Hr2.
      apply negb_true_iff in Hr2. apply existsb_pair_false. exact Hr2. }
    assert (Hnoent : ~ In (Enter (t, i)) (log s)).
    { intros Hin. destruct (I3 _ Hin) as [A|A]; [exact (Hnot A) | exact (A Hc)]. }
    assert (Hi1 : inv st0 (log_event (Enter (t, i)) s)).
    { unfold inv, log_event; simpl. rewrite inflight_from_app. simpl. fold F.
      split; [|split; [|split; [|split]]].
      + intros q r0 [Hin|Hin]; apply in_app_iff in Hin;
          destruct Hin as [Hin|[He|[]]]; try discriminate; apply I1; auto.
      + intros q [<-|Hq]; auto.
      + intros q Hin. apply in_app_iff in Hin. destruct Hin as [Hin|[He|[]]].
        * destruct (I3 q Hin) as [A|A]; [left; right; exact A | auto].
        * inversion He; subst. left; left; reflexivity.
      + intros q. rewrite count_enter_app. unfold count_enter at 2. simpl.
        destruct (pair_eqb (t, i) q) eqn:Eq; simpl.
        * apply pair_eqb_eq in Eq. subst q. rewrite (count_enter_notin _ _ Hnoent). lia.
        * specialize (I4 q). lia.
      + intros q Hq. destruct (I5 q Hq) as [A B]. split; [right; exact A|].
        rewrite in_app_iff. intros [C|[C|[]]]; [auto|].
        inversion C; subst. exact (Hnot A). }
    destruct (exec_inv _ (transform_ext fuel) IH _ _ _ _ E Hi1 Hr2)
      as [[J1 [J2 [J3 [J4 J5]]]] [JF JM]].
    simpl in JF. rewrite inflight_from_app in JF. simpl in JF.
    assert (Hp2 : cache_get (t, i) (cache s2) = None)
      by (apply J2; rewrite JF; left; reflexivity).
    unfold step_post, inv; cbn [cache log heap productionContext].
    rewrite inflight_from_app, JF. cbn [inflight_from tl].
    split; [|split; [reflexivity|]].
    + split; [|split; [|split; [|split]]].
      * intros q r0 [Hin|Hin]; apply in_app_iff in Hin; rewrite cache_get_cons;
          destruct (pair_eqb q (t, i)) eqn:Eq.
        -- apply pair_eqb_eq in Eq; subst q. destruct Hin as [Hin|[He|[]]]; [|discriminate].
           rewrite (J1 _ _ (or_introl Hin)) in Hp2. discriminate.
        -- destruct Hin as [Hin|[He|[]]]; [apply J1; auto | discriminate].
        -- apply pair_eqb_eq in Eq; subst q. destruct Hin as [Hin|[He|[]]].
           ++ rewrite (J1 _ _ (or_intror Hin)) in Hp2. discriminate.
           ++ inversion He; subst. reflexivity.
        -- destruct Hin as [Hin|[He|[]]]; [apply J1; auto|].
           inversion He; subst. rewrite pair_eqb_refl in Eq. discriminate.
      * intros q Hq. rewrite cache_get_cons. destruct (pair_eqb q (t, i)) eqn:Eq.
        -- apply pair_eqb_eq in Eq; subst q. contradiction.
        -- apply J2. rewrite JF. right; exact Hq.
      * intros q Hin. apply in_app_iff in Hin. destruct Hin as [Hin|[He|[]]]; [|discriminate].
        rewrite cache_get_cons. destruct (pair_eqb q (t, i)) eqn:Eq; [right; discriminate|].
        destruct (J3 q Hin) as [A|A]; auto. rewrite JF in A. destruct A as [A|A]; auto.
        subst q. rewrite pair_eqb_refl in Eq. discriminate.
      * intros q. rewrite count_enter_app. specialize (J4 q).
        unfold count_enter at 2; simpl. lia.
      * intros q Hq. destruct (I5 q Hq) as [A _]. destruct (J5 q Hq) as [_ B].
        split; [exact A|].
        rewrite in_app_iff. intros [C|[C|[]]]; [auto|discriminate].
    + intros q r0 Hq. rewrite cache_get_cons. destruct (pair_eqb q (t, i)) eqn:Eq.
      * apply pair_eqb_eq in Eq; subst q. rewrite Hc in Hq. discriminate.
      * apply JM. exact Hq.
Qed.

End Runs.

(** C5: within one top-level [transform] call, all the requests of one
    (transformer, input) pair made through the traversal function receive
    the same result object, and the transformer is invoked at most once
    on that pair (the root pair, called directly, never again through the
    traversal function); this for runs where no pair is requested while
    its own invocation is still running, the acyclic inputs and
    transformer graphs the traversal assumes. *)
Theorem transform_memoized {D : Type} (body : tid -> val -> prog D) (fuel : nat)
  (root : tid) (input : val) (r : ref) (s : state D) :
  __transform__ body fuel root input = Some (r, s) ->
  reentry_free_from [(root, input)] (log s) = true ->
  (forall p r1 r2, In r1 (responses p (log s)) -> In r2 (responses p (log s)) ->
     r1 = r2) /\
  (forall p, count_enter p (log s) <= 1) /\
  count_enter (root, input) (log s) = 0.
Proof.
  unfold __transform__. intros H Hr.
  assert (Hi0 : inv [(root, input)] (@init_state D)).
  { unfold inv; simpl.
    split; [intros p r0 [[]|[]]|].
    split; [intros; reflexivity|].
    split; [intros p []|].
    split; [intros; unfold count_enter; simpl; lia|].
    intros p Hp. split; [exact Hp|intros []]. }
  destruct (exec_inv _ _ (transform_ext body fuel) (transform_inv body _ fuel)
              _ _ _ _ H Hi0 Hr) as [[J1 [_ [_ [J4 J5]]]] _].
  split; [|split].
  - intros p r1 r2 H1 H2. apply responses_in in H1, H2.
    pose proof (J1 _ _ H1). pose proof (J1 _ _ H2). congruence.
  - exact J4.
  - apply count_enter_notin. apply (J5 (root, input)). left; reflexivity.
Qed.

Lemma transform_memoized_witness :
  let s := mkState [((1, VNum 4), 0)] [5] [(0, 1)]
             [Enter (1, VNum 4); Exit (1, VNum 4) 0; Hit (1, VNum 4) 0] in
  __transform__ diamond_body 3 0 (VNum 4) = Some (0, s) /\
  reentry_free_from [(0, VNum 4)] (log s) = true /\
  responses (1, VNum 4) (log s) = [0; 0] /\
  count_enter (1, VNum 4) (log s) <= 1 /\
  (forall r1 r2, In r1 (responses (1, VNum 4) (log s)) ->
     In r2 (responses (1, VNum 4) (log s)) -> r1 = r2).
Proof.
  intros s.
  assert (H : __transform__ diamond_body 3 0 (VNum 4) = Some (0, s)) by reflexivity.
  assert (Hr : reentry_free_from [(0, VNum 4)] (log s) = true) by reflexivity.
  destruct (transform_memoized diamond_body 3 0 (VNum 4) 0 s H Hr) as [A [B _]].
  split; [exact H|split; [exact Hr|split; [reflexivity|split; [apply B|apply A]]]].
Defined.

End TraversalFacts.

(** * Further properties of the result algebra *)
Module AlgebraExtras.

Import Algebra.

(** ** Helpers *)

Lemma bind_nf (self : result) (f : val -> option result) (v : val)
  (scaps : list CaptureSet) (n : result) (rcaps : list CaptureSet) :
  value_of self = Some v -> captures_of self = Some scaps ->
  f v = Some n -> captures_of n = Some rcaps ->
  exists r, bind self f = Some r /\
    value_of r = value_of n /\
    warnings_of r = warnings_of self ++ warnings_of n /\
    errors_of r = errors_of self ++ errors_of n /\
    (isValid r = true <-> errors_of r = []) /\
    isFailure r = false /\
    crossProductCaptures [scaps; rcaps] = captures_of r.
Proof.
  intros Hv Hc Hf Hn.
  destruct (AlgebraFacts.cross2_some scaps rcaps) as [z Hz].
  destruct self as [sv sw scs | sv se sw scs | se sw]; simpl in Hv, Hc;
    try discriminate; inversion Hv; inversion Hc; subst; unfold bind; rewrite Hf;
    (destruct n as [nv nw ncs | nv ne nw ncs | ne nw]; simpl in Hn; try discriminate;
     inversion Hn; subst; rewrite Hz; simpl;
     try match goal with |- context [match ?l with [] => _ | _ :: _ => _ end] =>
       destruct l eqn:E end;
     eexists; (split; [reflexivity|]); simpl; rewrite ?E;
     repeat split; intros; simpl in *; rewrite ?E in *; auto; try discriminate;
     try congruence).
Qed.

Lemma flatMap_single_right (cs : list CaptureSet) (x : CaptureSet) :
  flatMap cs (fun foo => map (fun bar => new_CaptureSet [foo; bar]) [x]) =
  map (fun foo => new_CaptureSet [foo; x]) cs.
Proof.
  unfold flatMap. induction cs as [|c cs IH]; [reflexivity|].
  simpl in *. rewrite IH. reflexivity.
Qed.


Lemma cross_some (ls : list (list CaptureSet)) :
  ls <> [] -> exists c, crossProductCaptures ls = Some c.
Proof.
  induction ls as [|foos rest IH]; intros H; [congruence|].
  destruct rest as [|r rest]; [simpl; eauto|].
  rewrite AlgebraFacts.cross_cons by discriminate.
  destruct IH as [bars Hb]; [discriminate|]. rewrite Hb.
  destruct foos; eauto.
Qed.

Lemma flatMap_length (foos bars : list CaptureSet) :
  List.length (flatMap foos (fun foo => map (fun bar => new_CaptureSet [foo; bar]) bars))
  = List.length foos * List.length bars.
Proof.
  unfold flatMap. induction foos as [|f foos IH]; simpl; [reflexivity|].
  rewrite length_app, length_map, IH. reflexivity.
Qed.

Lemma multimap_add_nonnil (k : option tid) (vs : list CaptureSet)
  (m : list (option tid * list CaptureSet)) : multimap_add k vs m <> [].
Proof. destruct m as [|[k' v'] m]; simpl; [|destruct (ctx_eqb k k')]; discriminate. Qed.

Lemma collect_nf (results : list (option tid * result)) :
  forall vals acc vs,
  map (fun cr => value_of (snd cr)) results = map Some vs ->
  fst (collect results vals acc) = vals ++ vs /\
  (acc <> [] \/ results <> [] -> snd (collect results vals acc) <> []).
Proof.
  induction results as [|[ctx r] results IH]; intros vals acc vs H.
  - destruct vs; [|discriminate]. simpl. rewrite app_nil_r.
    split; [reflexivity|]. intros [A|A]; [exact A|congruence].
  - destruct vs as [|v vs]; [discriminate|]. simpl in H. inversion H as [[Hv Hr]].
    destruct r as [rv rw rcs | rv re rw rcs | re rw]; simpl in Hv; try discriminate;
      inversion Hv; subst; simpl;
      (destruct (IH (vals ++ [v]) (multimap_add ctx rcs acc) vs Hr) as [A B];
       rewrite A, <- app_assoc; split; [reflexivity|];
       intros _; apply B; left; apply multimap_add_nonnil).
Qed.

Lemma mergeResults_nf (results : list (option tid * result))
  (mapping : list val -> option result) (vs : list val) :
  results <> [] ->
  map (fun cr => value_of (snd cr)) results = map Some vs ->
  let warnings := flatMap results (fun cr => warnings_of (snd cr)) in
  let errors := flatMap results (fun cr => errors_of (snd cr)) in
  exists captures,
    crossProductCaptures (map snd (snd (collect results [] []))) = Some captures /\
    mergeResults results mapping =
    match mapping vs with
    | None => None
    | Some value =>
        match value with
        | Failure verrors vwarnings =>
            Some (failure (verrors ++ errors) (vwarnings ++ warnings))
        | _ =>
            match errors with
            | _ :: _ => bind value (fun foo => Some (invalid foo errors warnings captures))
            | [] => bind value (fun foo => Some (valid foo warnings captures))
            end
        end
    end.
Proof.
  intros Hne Hv warnings errors.
  destruct (collect_nf results [] [] vs Hv) as [A B]. simpl in A.
  destruct (cross_some (map snd (snd (collect results [] [])))) as [caps Hc].
  { intros E. apply map_eq_nil in E. apply B in E; auto. }
  exists caps. split; [exact Hc|].
  unfold mergeResults. fold warnings errors.
  destruct (collect results [] []) as [values allc]. simpl in A, Hc. subst values.
  rewrite Hc.
  assert (Hl : Nat.eqb (List.length vs) (List.length results) = true).
  { apply Nat.eqb_eq. rewrite <- (length_map Some vs), <- Hv, length_map. reflexivity. }
  rewrite Hl. reflexivity.
Qed.

Lemma add_other_get (k k' : key) (c : Capture) (s : CaptureSet) :
  k <> k' ->
  CaptureSet_get k (CaptureSet_add k' c s) = CaptureSet_get k s /\
  set_has k (overloadedKeys (CaptureSet_add k' c s)) = set_has k (overloadedKeys s).
Proof.
  intros Hne. apply Nat.eqb_neq in Hne.
  destruct s as [o d]. unfold CaptureSet_add, CaptureSet_get; simpl.
  destruct (set_has k' o); [auto|].
  destruct (map_has k' d); simpl.
  - rewrite AlgebraFacts.map_get_delete, AlgebraFacts.set_has_add, Hne, orb_false_r. auto.
  - rewrite AlgebraFacts.map_get_app, Hne. destruct (map_get k d); auto.
Qed.

Lemma adds_other_get (k : key) (kvs : list (key * Capture)) (s : CaptureSet) :
  (forall kv, In kv kvs -> fst kv <> k) ->
  let s' := fold_left (fun s kv => CaptureSet_add (fst kv) (snd kv) s) kvs s in
  CaptureSet_get k s' = CaptureSet_get k s /\
  set_has k (overloadedKeys s') = set_has k (overloadedKeys s).
Proof.
  revert s. induction kvs as [|kv kvs IH]; simpl; intros s Hk; [auto|].
  destruct (IH (CaptureSet_add (fst kv) (snd kv) s)) as [A B]; [intros; apply Hk; auto|].
  rewrite A, B. apply add_other_get. intros E. apply (Hk kv); auto.
Qed.

Lemma merge_child_get (k : key) (s ch : CaptureSet) :
  map_has k (definedKeys ch) = false ->
  CaptureSet_get k (merge_child s ch) = CaptureSet_get k s /\
  set_has k (overloadedKeys (merge_child s ch)) =
    set_has k (overloadedKeys s) || set_has k (overloadedKeys ch).
Proof.
  intros Hch. unfold merge_child.
  destruct (adds_other_get k (definedKeys ch)
              (fold_left (fun s k => mkCaptureSet (set_add k (overloadedKeys s)) (definedKeys s))
                 (overloadedKeys ch) s)) as [A B];
    [apply AlgebraFacts.map_get_none_in; exact Hch|].
  rewrite A, B.
  destruct (AlgebraFacts.overloaded_fold (overloadedKeys ch) s) as [Hd Ho].
  unfold CaptureSet_get. rewrite Hd, Ho. auto.
Qed.

Lemma nodup_filter_keys (p : key * Capture -> bool) (d : list (key * Capture)) :
  NoDup (map fst d) -> NoDup (map fst (filter p d)).
Proof.
  induction d as [|kv d IH]; simpl; intros H; [constructor|].
  inversion H; subst. destruct (p kv); simpl; auto.
  constructor; auto. intros Hin. apply in_map_iff in Hin.
  destruct Hin as [kv' [E Hin]]. apply filter_In in Hin.
  apply H2. apply in_map_iff. exists kv'. tauto.
Qed.

Lemma add_nodup (k : key) (c : Capture) (s : CaptureSet) :
  NoDup (map fst (definedKeys s)) -> NoDup (map fst (definedKeys (CaptureSet_add k c s))).
Proof.
  destruct s as [o d]. unfold CaptureSet_add; simpl. intros H.
  destruct (set_has k o); [exact H|].
  destruct (map_has k d) eqn:E; simpl.
  - apply nodup_filter_keys. exact H.
  - rewrite map_app. apply NoDup_app; auto; [repeat constructor; simpl; tauto|].
    intros k0 Hin [<-|[]]. apply in_map_iff in Hin. destruct Hin as [kv [Hk Hin]].
    exact (AlgebraFacts.map_get_none_in k d E kv Hin Hk).
Qed.

Lemma adds_nodup (kvs : list (key * Capture)) (s : CaptureSet) :
  NoDup (map fst (definedKeys s)) ->
  NoDup (map fst (definedKeys
    (fold_left (fun s kv => CaptureSet_add (fst kv) (snd kv) s) kvs s))).
Proof.
  revert s. induction kvs as [|kv kvs IH]; simpl; auto.
  intros s H. apply IH. apply add_nodup. exact H.
Qed.

Lemma merge_child_nodup (s ch : CaptureSet) :
  NoDup (map fst (definedKeys s)) -> NoDup (map fst (definedKeys (merge_child s ch))).
Proof.
  intros H. unfold merge_child. apply adds_nodup.
  destruct (AlgebraFacts.overloaded_fold (overloadedKeys ch) s) as [Hd _].
  rewrite Hd. exact H.
Qed.




Lemma merge_empty_overloaded (k : key) (bar : CaptureSet) :
  set_has k (overloadedKeys bar) = true -> CaptureSet_get k bar = None ->
  key_overloaded k (new_CaptureSet [new_CaptureSet []; bar]).
Proof.
  intros Ho Hc. change (new_CaptureSet [new_CaptureSet []; bar])
    with (merge_child emptyCaptureSet bar).
  apply AlgebraFacts.merge_child_overloaded. right. split; [reflexivity|exact Ho].
Qed.

(** The capture set of one execution of [capture]: a world [w] of the
    output, merged with [{k: c}]. *)
Lemma capture_world_resolves (k : key) (c : Capture) (w : CaptureSet) :
  set_has k (overloadedKeys w) = false -> map_has k (definedKeys w) = false ->
  let s := new_CaptureSet [w; mkCaptureSet [] [(k, c)]] in
  CaptureSet_get k s = Some c /\ set_has k (overloadedKeys s) = false /\
  NoDup (map fst (definedKeys s)).
Proof.
  intros Ho Hd s.
  change s with (CaptureSet_add k c (merge_child emptyCaptureSet w)).
  destruct (merge_child_get k emptyCaptureSet w Hd) as [A B].
  simpl in B. rewrite Ho in B.
  assert (Ha : key_absent k (merge_child emptyCaptureSet w)) by (split; assumption).
  destruct (proj1 (AlgebraFacts.add_same_key k c _ (or_introl Ha)) Ha) as [G [D1 _]].
  split; [exact G|split; [exact D1|]].
  apply add_nodup, merge_child_nodup. constructor.
Qed.

(** A capture set merged from the empty set: [k] absent, defined or
    overloaded. *)
Lemma merge_empty_trichotomy (k : key) (w : CaptureSet) :
  let s := merge_child emptyCaptureSet w in
  key_absent k s \/ key_defined k s \/ key_overloaded k s.
Proof.
  intros s. unfold s, merge_child.
  destruct (AlgebraFacts.overloaded_fold (overloadedKeys w) emptyCaptureSet) as [Hd Ho].
  set (F := fold_left _ (overloadedKeys w) emptyCaptureSet) in *.
  assert (HF : key_absent k F \/ key_overloaded k F).
  { unfold key_absent, key_overloaded, CaptureSet_get. rewrite Hd, Ho. simpl.
    destruct (set_has k (overloadedKeys w)); auto. }
  destruct (map_has k (definedKeys w)) eqn:E.
  - right. apply (proj1 (AlgebraFacts.adds_reach k (definedKeys w) F
                           (AlgebraFacts.map_has_in k _ E))).
    destruct HF; auto.
  - destruct (AlgebraFacts.adds_other k (definedKeys w) F
                (AlgebraFacts.map_get_none_in k _ E) HF); auto.
Qed.

(** Adding [k] to a merge of a set that already mentions [k]. *)
Lemma add_after_merge_overloaded (k : key) (c : Capture) (foo : CaptureSet) :
  key_defined k foo \/ key_overloaded k foo ->
  key_overloaded k (CaptureSet_add k c (merge_child emptyCaptureSet foo)).
Proof.
  intros H.
  assert (Hm : key_defined k (merge_child emptyCaptureSet foo) \/
               key_overloaded k (merge_child emptyCaptureSet foo)).
  { unfold merge_child.
    destruct (AlgebraFacts.overloaded_fold (overloadedKeys foo) emptyCaptureSet) as [Hd Ho].
    set (F := fold_left _ (overloadedKeys foo) emptyCaptureSet) in *.
    destruct H as [[H1 H2]|[H1 H2]].
    - apply (proj1 (AlgebraFacts.adds_reach k (definedKeys foo) F
                      (AlgebraFacts.map_has_in k _ H2))).
      left. unfold key_absent, CaptureSet_get. rewrite Hd, Ho, H1. simpl. auto.
    - right. apply AlgebraFacts.adds_overloaded.
      unfold key_overloaded, CaptureSet_get. rewrite Hd, Ho, H1. simpl. auto. }
  apply (proj2 (AlgebraFacts.add_same_key k c _ (or_intror Hm))). exact Hm.
Qed.

Lemma get_captures (r : result) (cs : list CaptureSet) (k : key) :
  captures_of r = Some cs -> get r k = map (CaptureSet_get k) cs.
Proof. destruct r; simpl; intros H; inversion H; reflexivity. Qed.

Lemma captures_nonfailure (r : result) :
  isFailure r = false -> exists cs, captures_of r = Some cs.
Proof. destruct r; simpl; intros H; eauto; discriminate. Qed.

Lemma getCanonical_repeat (r : result) (k : key) (c : Capture) (n : nat) :
  get r k = repeat (Some c) (S n) -> getCanonical r k = Some c.
Proof.
  intros H. unfold getCanonical. rewrite H.
  assert (Hf : filter_just (repeat (Some c) (S n)) = repeat c (S n)).
  { unfold filter_just, flatMap. generalize (S n) as m.
    induction m as [|m IH]; simpl; [reflexivity|]. rewrite IH. reflexivity. }
  rewrite Hf. unfold new_Set. simpl.
  assert (Hc : same_capture c c = true) by (apply AlgebraFacts.same_capture_ref; reflexivity).
  assert (Hfold : forall m, fold_left (fun acc c0 =>
            if existsb (same_capture c0) acc then acc else acc ++ [c0]) (repeat c m) [c] = [c]).
  { induction m as [|m IH]; simpl; [reflexivity|]. rewrite Hc. exact IH. }
  rewrite Hfold. reflexivity.
Qed.

Lemma getCanonical_all_none (r : result) (k : key) :
  Forall (fun o => o = None) (get r k) -> getCanonical r k = None.
Proof.
  intros H. unfold getCanonical.
  assert (Hf : filter_just (get r k) = []).
  { unfold filter_just, flatMap. induction H as [|o l Ho _ IH]; simpl; [reflexivity|].
    subst o. exact IH. }
  rewrite Hf. reflexivity.
Qed.

(** One execution of [capture] on a non-failing output: the worlds of the
    output, each merged with [{k: {input, output}}]. *)
Lemma capture_view (self : tid) (k : key) (t : transformer) (i : val) (r : result)
  (cs : list CaptureSet) :
  t i = Some r -> captures_of r = Some cs ->
  let ck := mkCaptureSet [] [(k, mkCapture self i r)] in
  exists r', capture self k t i = Some r' /\ observe r' = observe r /\
    isFailure r' = false /\ (isValid r' = true <-> errors_of r = []) /\
    captures_of r' = Some (match cs with
                           | [] => [ck]
                           | _ => map (fun foo => new_CaptureSet [foo; ck]) cs
                           end).
Proof.
  intros Ht Hc ck. unfold capture. rewrite Ht.
  destruct r as [v w cs0 | v e w cs0 | e w]; simpl in Hc; try discriminate;
    inversion Hc; subst cs0;
    (lazymatch goal with
     | |- context [bind ?R ?F] =>
       edestruct (bind_nf R F v cs _ _ eq_refl eq_refl eq_refl eq_refl)
         as [r' [H1 [H2 [H3 [H4 [H5 [H6 H7]]]]]]]
     end;
     exists r'; split; [exact H1|];
     split; [unfold observe; rewrite H2, H3, H4; simpl; rewrite ?app_nil_r; reflexivity|];
     split; [exact H6|];
     split; [rewrite H5, H4; simpl; rewrite ?app_nil_r; tauto|];
     rewrite <- H7; destruct cs as [|c0 cs']; [reflexivity|];
     transitivity (Some (flatMap (c0 :: cs') (fun foo =>
        map (fun bar => new_CaptureSet [foo; bar]) [ck]))); [reflexivity|];
     rewrite flatMap_single_right; reflexivity).
Qed.

(** ** Extras *)

Lemma merge_nonfailing_view (results : list (option tid * result))
  (mapping : list val -> option result) (vs : list val) (v : result) :
  results <> [] ->
  map (fun cr => value_of (snd cr)) results = map Some vs ->
  mapping vs = Some v -> isFailure v = false ->
  exists r, mergeResults results mapping = Some r /\
    value_of r = value_of v /\
    errors_of r = errors_of v ++ flatMap results (fun cr => errors_of (snd cr)) /\
    warnings_of r = warnings_of v ++ flatMap results (fun cr => warnings_of (snd cr)) /\
    isFailure r = false /\
    (isValid r = true <-> errors_of r = []).
Proof.
  intros Hne Hv Hmv Hf.
  destruct (mergeResults_nf results mapping vs Hne Hv) as [caps [_ Hm]].
  rewrite Hm, Hmv.
  destruct (captures_nonfailure v Hf) as [vcs Hvc].
  destruct v as [v0 w0 cs0 | v0 e0 w0 cs0 | e0 w0]; [| |discriminate].
  all: destruct (flatMap results (fun cr => errors_of (snd cr))) as [|e1 es] eqn:E.
  all: cbv beta iota.
  all: lazymatch goal with
     | |- context [bind ?R ?F] =>
       edestruct (bind_nf R F v0 vcs _ caps eq_refl Hvc eq_refl eq_refl)
         as [r [H1 [H2 [H3 [H4 [H5 [H6 _]]]]]]]
     end.
  all: exists r; rewrite H1; split; [reflexivity|].
  all: refine (conj _ (conj _ (conj _ (conj H6 H5)))).
  all: first [rewrite H2 | rewrite H3 | rewrite H4]; simpl; rewrite ?app_nil_r; reflexivity.
Qed.

(** [mergeResults] on a non-empty list of non-failing results: when the
    mapping returns a non-failing result, the merged result carries the
    mapping's value, its errors and warnings followed by those of all the
    results, and is [Valid] exactly when there are no errors; when the
    mapping returns a [Failure], the failure's errors and warnings come
    first, followed by those of all the results. *)
Theorem mergeResults_nonfailing (results : list (option tid * result))
  (mapping : list val -> option result) (vs : list val) :
  results <> [] ->
  map (fun cr => value_of (snd cr)) results = map Some vs ->
  (forall v, mapping vs = Some v -> isFailure v = false ->
   exists r, mergeResults results mapping = Some r /\
     value_of r = value_of v /\
     errors_of r = errors_of v ++ flatMap results (fun cr => errors_of (snd cr)) /\
     warnings_of r = warnings_of v ++ flatMap results (fun cr => warnings_of (snd cr)) /\
     isFailure r = false /\
     (isValid r = true <-> errors_of r = [])) /\
  (forall e w, mapping vs = Some (Failure e w) ->
   mergeResults results mapping =
   Some (failure (e ++ flatMap results (fun cr => errors_of (snd cr)))
                 (w ++ flatMap results (fun cr => warnings_of (snd cr))))).
Proof.
  intros Hne Hv. split.
  - intros v Hmv Hf. exact (merge_nonfailing_view results mapping vs v Hne Hv Hmv Hf).
  - intros e w Hmv.
    destruct (mergeResults_nf results mapping vs Hne Hv) as [caps [_ Hm]].
    rewrite Hm, Hmv. reflexivity.
Qed.

Lemma mergeResults_nonfailing_witness :
  let rs := [(Some 1, valid (VNum 1) ["w1"] [new_CaptureSet []]);
             (Some 2, invalid (VNum 2) ["e2"] [] [new_CaptureSet []])] in
  let mapping := fun (_ : list val) => Some (valid_default (VNum 3)) in
  mergeResults rs mapping = Some (invalid (VNum 3) ["e2"] ["w1"] [new_CaptureSet [new_CaptureSet []; new_CaptureSet [new_CaptureSet []; new_CaptureSet [new_CaptureSet []; new_CaptureSet []]]]]) /\
  exists r, mergeResults rs mapping = Some r /\ errors_of r = ["e2"] /\ isValid r = false.
Proof.
  intros rs mapping. split; [reflexivity|].
  destruct (proj1 (mergeResults_nonfailing rs mapping [VNum 1; VNum 2]
              ltac:(discriminate) eq_refl) (valid_default (VNum 3)) eq_refl eq_refl)
    as [r [H1 [_ [H3 [_ [_ H6]]]]]].
  exists r. split; [exact H1|]. rewrite H3. split; [reflexivity|].
  rewrite H3 in H6. destruct (isValid r); [|reflexivity].
  discriminate (proj1 H6 eq_refl).
Defined.

(** [crossProductCaptures] of non-empty arrays has as many capture sets
    as the product of the arrays' lengths. *)
Theorem crossProductCaptures_length (ls : list (list CaptureSet)) :
  ls <> [] -> Forall (fun l => l <> []) ls ->
  exists c, crossProductCaptures ls = Some c /\
    List.length c = fold_right (fun l n => List.length l * n) 1 ls.
Proof.
  induction ls as [|foos rest IH]; intros Hne Hall; [congruence|].
  inversion Hall as [|? ? Hf Hr]; subst.
  destruct rest as [|r rest].
  - exists foos. simpl. split; [reflexivity|]. lia.
  - rewrite AlgebraFacts.cross_cons by discriminate.
    destruct (IH ltac:(discriminate) Hr) as [bars [Hb Hl]]. rewrite Hb.
    destruct foos as [|f0 foos]; [congruence|].
    eexists. split; [reflexivity|].
    rewrite flatMap_length, Hl. reflexivity.
Qed.

Lemma crossProductCaptures_length_witness :
  let a := new_CaptureSet [] in
  exists c, crossProductCaptures [[a; a]; [a; a; a]] = Some c /\ List.length c = 6.
Proof.
  intros a.
  destruct (crossProductCaptures_length [[a; a]; [a; a; a]] ltac:(discriminate)
              ltac:(repeat constructor; discriminate)) as [c [H1 H2]].
  exists c. split; [exact H1|]. rewrite H2. reflexivity.
Defined.

(** [capture(key, t)] is transparent for diagnostics: its result has the
    value, warnings and errors of [t]'s result and fails exactly when [t]'s
    does; a non-failing result becomes [Valid] exactly when it has no
    errors (so an [Invalid] without errors turns [Valid]). *)
Theorem capture_transparent (self : tid) (k : key) (t : transformer) (input : val) :
  option_map observe (capture self k t input) = option_map observe (t input) /\
  option_map isFailure (capture self k t input) = option_map isFailure (t input) /\
  (forall r r', t input = Some r -> capture self k t input = Some r' ->
     isFailure r = false -> (isValid r' = true <-> errors_of r = [])).
Proof.
  destruct (t input) as [r|] eqn:Ht.
  - destruct (isFailure r) eqn:Hf.
    + assert (E : capture self k t input = Some r).
      { unfold capture. rewrite Ht. destruct r; try discriminate. reflexivity. }
      rewrite E. split; [reflexivity|split; [reflexivity|]].
      intros r0 r' H0 _ Hf'. inversion H0; subst. congruence.
    + destruct (captures_nonfailure r Hf) as [cs Hc].
      destruct (capture_view self k t input r cs Ht Hc) as [r' [H1 [H2 [H3 [H4 _]]]]].
      rewrite H1. simpl. rewrite H2, H3, Hf.
      split; [reflexivity|split; [reflexivity|]].
      intros r0 r1 H0 H5 _. inversion H0; inversion H5; subst. exact H4.
  - unfold capture. rewrite Ht. simpl. split; [reflexivity|split; [reflexivity|]].
    intros r r' H. discriminate.
Qed.

(** [capture(key, t)] on an output whose capture sets do not mention [key]
    records [{input, output}] under [key] in every world (at least one),
    and [getCanonical] returns it. *)
Theorem capture_records_key (self : tid) (k : key) (t : transformer) (input : val)
  (r : result) (cs : list CaptureSet) :
  t input = Some r -> captures_of r = Some cs ->
  Forall (fun w => set_has k (overloadedKeys w) = false /\
                   map_has k (definedKeys w) = false) cs ->
  exists r', capture self k t input = Some r' /\
    get r' k = repeat (Some (mkCapture self input r)) (Nat.max 1 (List.length cs)) /\
    getCanonical r' k = Some (mkCapture self input r).
Proof.
  intros Ht Hc Hall.
  destruct (capture_view self k t input r cs Ht Hc) as [r' [H1 [_ [_ [_ H5]]]]].
  assert (Hg : get r' k = repeat (Some (mkCapture self input r)) (Nat.max 1 (List.length cs))).
  { rewrite (get_captures r' _ k H5).
    destruct cs as [|c0 cs'].
    - simpl. unfold CaptureSet_get. simpl. rewrite Nat.eqb_refl. reflexivity.
    - rewrite map_map.
      rewrite (map_ext_in _ (fun _ => Some (mkCapture self input r))).
      + rewrite map_const. reflexivity.
      + intros w Hw. rewrite Forall_forall in Hall. destruct (Hall w Hw) as [Ho Hd].
        apply (capture_world_resolves k (mkCapture self input r) w Ho Hd). }
  exists r'. split; [exact H1|]. split; [exact Hg|].
  apply (getCanonical_repeat r' k _ (Nat.max 1 (List.length cs) - 1)).
  rewrite Hg. f_equal. lia.
Qed.

Lemma capture_records_key_witness :
  exists r', capture 1 7 accept (VNum 4) = Some r' /\
    getCanonical r' 7 = Some (mkCapture 1 (VNum 4) (valid_default (VNum 4))).
Proof.
  destruct (capture_records_key 1 7 accept (VNum 4) (valid_default (VNum 4))
              [new_CaptureSet []] eq_refl eq_refl
              ltac:(repeat constructor)) as [r' [H1 [_ H3]]].
  exists r'. auto.
Defined.

(** Nesting [capture(key, capture(key, t))]: the result has at least one
    capture set and [key] is overloaded (marked overloaded and unresolved)
    in every one of them, so [get] finds nothing and [getCanonical] is
    absent, whatever non-failing result [t] returns. *)
Theorem capture_same_key_nested (s1 s2 : tid) (k : key) (t : transformer) (input : val)
  (r : result) :
  t input = Some r -> isFailure r = false ->
  exists r' ws, capture s2 k (capture s1 k t) input = Some r' /\
    captures_of r' = Some ws /\ ws <> [] /\ Forall (key_overloaded k) ws /\
    get r' k <> [] /\ Forall (fun o => o = None) (get r' k) /\ getCanonical r' k = None.
Proof.
  intros Ht Hf.
  destruct (captures_nonfailure r Hf) as [cs Hc].
  destruct (capture_view s1 k t input r cs Ht Hc) as [r1 [H1 [_ [Hf1 [_ Hc1]]]]].
  set (ck1 := mkCaptureSet [] [(k, mkCapture s1 input r)]) in *.
  set (W1 := match cs with [] => [ck1] | _ => map (fun foo => new_CaptureSet [foo; ck1]) cs end)
    in *.
  assert (HW : forall foo, In foo W1 -> key_defined k foo \/ key_overloaded k foo).
  { intros foo Hin. unfold W1 in Hin. destruct cs as [|c0 cs'].
    - destruct Hin as [<-|[]]. left. unfold key_defined, map_has; simpl.
      rewrite Nat.eqb_refl. auto.
    - apply in_map_iff in Hin. destruct Hin as [w [<- _]].
      change (new_CaptureSet [w; ck1])
        with (CaptureSet_add k (mkCapture s1 input r) (merge_child emptyCaptureSet w)).
      destruct (merge_empty_trichotomy k w) as [Ha|Hdo].
      + left. apply (proj1 (AlgebraFacts.add_same_key k _ _ (or_introl Ha)) Ha).
      + right. apply (proj2 (AlgebraFacts.add_same_key k _ _ (or_intror Hdo))). exact Hdo. }
  assert (HW1 : W1 <> []) by (unfold W1; destruct cs; discriminate).
  destruct (capture_view s2 k (capture s1 k t) input r1 W1 H1 Hc1)
    as [r' [H2 [_ [_ [_ Hc2]]]]].
  set (ws := match W1 with
             | [] => [mkCaptureSet [] [(k, mkCapture s2 input r1)]]
             | _ => map (fun foo => new_CaptureSet [foo;
                       mkCaptureSet [] [(k, mkCapture s2 input r1)]]) W1
             end) in *.
  assert (HO : Forall (key_overloaded k) ws).
  { unfold ws. destruct W1 as [|f0 W1']; [congruence|].
    apply Forall_forall. intros x Hx. apply in_map_iff in Hx.
    destruct Hx as [foo [<- Hin]].
    change (new_CaptureSet [foo; mkCaptureSet [] [(k, mkCapture s2 input r1)]])
      with (CaptureSet_add k (mkCapture s2 input r1) (merge_child emptyCaptureSet foo)).
    apply (add_after_merge_overloaded k _ foo (HW foo Hin)). }
  assert (Hws : ws <> []) by (unfold ws; destruct W1; [congruence|discriminate]).
  assert (HN : Forall (fun o => o = None) (get r' k)).
  { rewrite (get_captures r' _ k Hc2). apply Forall_forall. intros o Ho.
    apply in_map_iff in Ho. destruct Ho as [x [<- Hx]].
    rewrite Forall_forall in HO. exact (proj2 (HO x Hx)). }
  exists r', ws. split; [exact H2|]. split; [exact Hc2|]. split; [exact Hws|].
  split; [exact HO|].
  split; [rewrite (get_captures r' _ k Hc2); destruct ws; [congruence|discriminate]|].
  split; [exact HN|].
  apply getCanonical_all_none. exact HN.
Qed.

Lemma capture_same_key_nested_witness :
  exists r', capture 2 7 (capture 1 7 accept) (VNum 4) = Some r' /\
    getCanonical r' 7 = None.
Proof.
  destruct (capture_same_key_nested 1 2 7 accept (VNum 4) (valid_default (VNum 4))
              eq_refl eq_refl) as [r' [ws [H1 [_ [_ [_ [_ [_ H4]]]]]]]].
  exists r'. auto.
Defined.

End AlgebraExtras.

Module UnionFacts.

Import Algebra Union.

Lemma union_loop_skip (ts1 rest : list transformer) (input : val) :
  Forall (fun t => exists r, t input = Some r /\ isValid r = false) ts1 ->
  forall fi ff, exists fi' ff',
    union_loop (ts1 ++ rest) input fi ff = union_loop rest input fi' ff'.
Proof.
  induction 1 as [|t ts1 [r [Ht Hv]] _ IH]; intros fi ff; simpl; [eauto|].
  rewrite Ht. destruct r; try discriminate; apply IH.
Qed.

Lemma union_loop_no_valid (ts : list transformer) (input : val) :
  forall rs fi ff,
  map (fun t => t input) ts = map Some rs ->
  Forall (fun r => isValid r = false) rs ->
  union_loop ts input fi ff =
  Some (match fi with
        | Some r => r
        | None =>
            match find isInvalid rs with
            | Some r => r
            | None =>
                match ff with
                | Some r => r
                | None =>
                    match find isFailure rs with
                    | Some r => r
                    | None => failure ["The impossible happened"] []
                    end
                end
            end
        end).
Proof.
  induction ts as [|t ts IH]; intros rs fi ff Hm Hv;
    destruct rs as [|r rs]; simpl in Hm; try discriminate.
  - simpl. destruct fi; [reflexivity|]. destruct ff; reflexivity.
  - injection Hm as Ht Hm. inversion Hv as [|? ? Hr Hv']; subst.
    simpl. rewrite Ht.
    destruct r; [discriminate| |]; rewrite (IH rs _ _ Hm Hv');
      destruct fi; try reflexivity; destruct ff; reflexivity.
Qed.

(** [union(...ts)] returns the result of the first transformer whose
    result is [Valid], provided every transformer before it returns without
    throwing and not [Valid]; the transformers after it are never run (they
    may throw). *)
Theorem union_first_valid (ts1 : list transformer) (t : transformer)
  (ts2 : list transformer) (input : val) (r : result) :
  Forall (fun t' => exists r', t' input = Some r' /\ isValid r' = false) ts1 ->
  t input = Some r -> isValid r = true ->
  union (ts1 ++ t :: ts2) input = Some r.
Proof.
  intros H Ht Hv. unfold union.
  destruct (union_loop_skip ts1 (t :: ts2) input H None None) as [fi [ff ->]].
  simpl. rewrite Ht. destruct r; try discriminate. reflexivity.
Qed.

Lemma union_first_valid_witness :
  union [fun _ => Some (failure ["no"] []); accept; fun _ => None] (VNum 1) =
  Some (valid_default (VNum 1)).
Proof.
  apply (union_first_valid [fun _ => Some (failure ["no"] [])] accept [fun _ => None]
           (VNum 1) (valid_default (VNum 1))).
  - constructor; [|constructor]. eexists. split; reflexivity.
  - reflexivity.
  - reflexivity.
Defined.

(** When no transformer of [union(...ts)] returns [Valid] (and none
    throws), the union returns the first [Invalid] result; if there is
    none, the first [Failure]; for an empty union, the failure
    ["The impossible happened"]. *)
Theorem union_no_valid (ts : list transformer) (input : val) (rs : list result) :
  map (fun t => t input) ts = map Some rs ->
  Forall (fun r => isValid r = false) rs ->
  union ts input =
  Some (match find isInvalid rs with
        | Some r => r
        | None =>
            match find isFailure rs with
            | Some r => r
            | None => failure ["The impossible happened"] []
            end
        end).
Proof.
  intros Hm Hv. unfold union. rewrite (union_loop_no_valid ts input rs None None Hm Hv).
  reflexivity.
Qed.

Lemma union_no_valid_witness :
  let f := failure ["f"] [] in
  let i2 := invalid (VNum 2) ["i2"] [] [new_CaptureSet []] in
  let i3 := invalid (VNum 3) ["i3"] [] [new_CaptureSet []] in
  union [fun _ => Some f; fun _ => Some i2; fun _ => Some i3] (VNum 1) = Some i2 /\
  union [fun _ => Some f] (VNum 1) = Some f /\
  union [] (VNum 1) = Some (failure ["The impossible happened"] []).
Proof.
  intros f i2 i3. split; [|split].
  - apply (union_no_valid [fun _ => Some f; fun _ => Some i2; fun _ => Some i3]
             (VNum 1) [f; i2; i3] eq_refl); repeat constructor.
  - apply (union_no_valid [fun _ => Some f] (VNum 1) [f] eq_refl); repeat constructor.
  - apply (union_no_valid [] (VNum 1) [] eq_refl); constructor.
Defined.

End UnionFacts.

Module PojoFacts.

Import Algebra Pojo PojoDemo.

Local Open Scope string_scope.

Lemma val_eqb_true (x y : val) : val_eqb x y = true -> x = y.
Proof. unfold val_eqb. destruct (val_eq_dec x y); congruence. Qed.

Lemma val_eqb_refl (x : val) : val_eqb x x = true.
Proof. unfold val_eqb. destruct (val_eq_dec x x); congruence. Qed.







Section Constant.

#[local] Set Default Proof Using "Type".

Variable obj_to_string : nat -> option string.

(** [constant(value)] accepts exactly [value], as a [Valid] result carrying
    the input. Any other input gives one error and no warning: an [Invalid]
    result carrying the input when it has the type of [value], a [Failure]
    otherwise. *)
Theorem constant_classification (value input : val) (r : result) :
  constant obj_to_string value input = Some r ->
  (isValid r = true <-> input = value) /\
  (input = value -> r = valid_default input) /\
  (input <> value ->
     List.length (errors_of r) = 1 /\ warnings_of r = [] /\
     (isFailure r = false <-> typeof input = typeof value) /\
     (isFailure r = false -> value_of r = Some input)).
Proof.
  unfold constant. intros H.
  destruct (val_eqb input value) eqn:E.
  - apply val_eqb_true in E. subst. injection H as <-.
    split; [simpl; tauto|]. split; [reflexivity|]. intros C. congruence.
  - assert (Hne : input <> value) by (intros ->; rewrite val_eqb_refl in E; discriminate).
    destruct (String.eqb (typeof input) (typeof value)) eqn:E2.
    + apply String.eqb_eq in E2.
      destruct (template obj_to_string input), (template obj_to_string value);
        try discriminate.
      injection H as <-. simpl.
      split; [split; [discriminate|congruence]|]. split; [congruence|].
      intros _. repeat split; auto.
    + apply String.eqb_neq in E2. injection H as <-. simpl.
      split; [split; [discriminate|congruence]|]. split; [congruence|].
      intros _. repeat split; try discriminate; try congruence.
Qed.

(** For a primitive [value] (the values the type of [constant] allows),
    [constant(value)] throws exactly when [value] is [null] and the input
    is an object whose string conversion throws. *)
Theorem constant_throws_iff (value input : val) :
  (forall n, value <> VObj n) ->
  (constant obj_to_string value input = None <->
   value = VNull /\ exists n, input = VObj n /\ obj_to_string n = None).
Proof.
  intros Hv. unfold constant.
  destruct (val_eqb input value) eqn:E.
  - apply val_eqb_true in E. subst.
    split; [discriminate|]. intros [-> [n [H _]]]. discriminate.
  - destruct (String.eqb (typeof input) (typeof value)) eqn:E2.
    + apply String.eqb_eq in E2.
      destruct value as [| |b|z|s|n]; [| | | | |exfalso; exact (Hv n eq_refl)];
        destruct input as [| |b'|z'|s'|n']; simpl in E2; try discriminate E2; simpl;
        try (split; [discriminate|intros [H _]; discriminate H]).
      * rewrite val_eqb_refl in E. discriminate.
      * destruct (obj_to_string n') eqn:Eo.
        -- split; [discriminate|]. intros [_ [m [Hm Hm']]]. injection Hm as <-. congruence.
        -- split; [eauto|reflexivity].
    + split; [discriminate|]. intros [-> [n [-> _]]]. simpl in E2. discriminate.
Qed.

End Constant.

Section Instance.

#[local] Set Default Proof Using "Type".

Variable instance_of : nat -> nat -> bool.

(** [instance(Number)], [instance(String)] and [instance(Boolean)] never
    throw and never return [Invalid]: the result is [valid(input)] exactly
    when [typeof input] is the constructor's type, and otherwise a [Failure]
    with the single type message. *)
Theorem instance_primitive_outcome (c : ctor) (type : string) (input : val) :
  primitiveTypesByConstructor c = Some type ->
  exists r, instance instance_of c input = Some r /\ isInvalid r = false /\
    (isValid r = true <-> typeof input = type) /\
    (isValid r = true -> r = valid_default input) /\
    (isValid r = false ->
       r = failure ["Received input of type '" ++ typeof input ++ "' where '" ++
                    type ++ "' was expected"] []).
Proof.
  intros P. unfold instance. rewrite P.
  destruct (String.eqb (typeof input) type) eqn:E.
  - apply String.eqb_eq in E. eexists. split; [reflexivity|]. simpl.
    split; [reflexivity|]. split; [tauto|]. split; [reflexivity|discriminate].
  - apply String.eqb_neq in E. eexists. split; [reflexivity|]. simpl.
    split; [reflexivity|]. split; [split; [discriminate|congruence]|].
    split; [discriminate|reflexivity].
Qed.

End Instance.

Section Combinators.

#[local] Set Default Proof Using "Type".

Variable instance_of : nat -> nat -> bool.
Variable object_keys : val -> option (list string).
Variable prop : val -> string -> val.
Variable array_elems : val -> list val.
Variable new_object : list (string * val) -> val.
Variable new_array : list val -> val.

(** The four pojo combinators first check the input with [instance(Object)]
    or [instance(Array)]: an input that is not an instance gets that
    [Failure] and no element transformer runs. *)
Theorem pojo_rejects_non_instances (pattern : list (string * (tid * transformer)))
  (t : tid * transformer) (apattern : list (tid * transformer)) (input : val) :
  (js_instanceof instance_of input ObjectRef = false ->
   objectShape instance_of prop new_object pattern input =
     Some (failure ["Received input was not an instance of Object "] []) /\
   objectCollection instance_of object_keys prop new_object t input =
     Some (failure ["Received input was not an instance of Object "] [])) /\
  (js_instanceof instance_of input ArrayRef = false ->
   arrayShape instance_of array_elems new_array apattern input =
     Some (failure ["Received input was not an instance of Array "] []) /\
   arrayCollection instance_of array_elems new_array t input =
     Some (failure ["Received input was not an instance of Array "] [])).
Proof.
  unfold objectShape, objectCollection, arrayShape, arrayCollection, chain, instance.
  simpl. split; intros H; rewrite H; split; reflexivity.
Qed.

(** [arrayShape(pattern)] on an array whose length differs from the
    pattern's returns the length [Failure] without running the pattern. *)
Theorem arrayShape_length_mismatch (pattern : list (tid * transformer)) (arr : val) :
  js_instanceof instance_of arr ArrayRef = true ->
  List.length (array_elems arr) <> List.length pattern ->
  arrayShape instance_of array_elems new_array pattern arr =
  Some (failure ["Received input of length " ++ nat_to_string (List.length (array_elems arr)) ++
                 " where length " ++ nat_to_string (List.length pattern) ++
                 " was expected"] []).
Proof.
  intros Ha Hl. unfold arrayShape, chain, instance. simpl. rewrite Ha. simpl.
  apply Nat.eqb_neq in Hl. rewrite Hl. reflexivity.
Qed.

(** Applied to empty input, the pojo combinators throw, because
    [mergeResults] of no results throws. This covers an array with no
    elements for [arrayCollection], and the empty pattern on an empty array
    for [arrayShape]. It also covers any object for [objectShape({})], and
    an object without keys for [objectCollection]. *)
Theorem pojo_empty_throws (t : tid * transformer) (arr obj : val) :
  js_instanceof instance_of arr ArrayRef = true -> array_elems arr = [] ->
  js_instanceof instance_of obj ObjectRef = true -> object_keys obj = Some [] ->
  arrayCollection instance_of array_elems new_array t arr = None /\
  arrayShape instance_of array_elems new_array [] arr = None /\
  objectShape instance_of prop new_object [] obj = None /\
  objectCollection instance_of object_keys prop new_object t obj = None.
Proof.
  intros Ha He Ho Hk.
  unfold arrayCollection, arrayShape, objectShape, objectCollection, chain, instance.
  simpl. rewrite Ha, Ho. simpl. rewrite He, Hk. simpl.
  repeat split; reflexivity.
Qed.

Lemma chain_instance_array (arr : val) (f : transformer) :
  js_instanceof instance_of arr ArrayRef = true ->
  chain (instance instance_of ArrayCtor) [f] arr = bind (valid_default arr) f.
Proof. intros H. unfold chain, instance. simpl. rewrite H. reflexivity. Qed.

Lemma run_each_const (t : tid * transformer) (xs : list val) (rs : list result) :
  map (snd t) xs = map Some rs ->
  run_each (map (fun x => (t, x)) xs) = Some (map (fun r => (Some (fst t), r)) rs).
Proof.
  destruct t as [id f]. revert rs.
  induction xs as [|x xs IH]; intros [|r rs] H; simpl in H; try discriminate;
    [reflexivity|].
  injection H as Hx H. simpl. rewrite Hx, (IH rs H). reflexivity.
Qed.

(** [arrayCollection(t)] on a non-empty array without holes whose elements [t] maps to
    non-failing results: the value is a new array of the element values, the
    errors and warnings are those of the elements in order, and the result is
    [Valid] exactly when no element has an error. *)
Theorem arrayCollection_aggregates (t : tid * transformer) (arr : val)
  (rs : list result) (vs : list val) :
  js_instanceof instance_of arr ArrayRef = true ->
  map (snd t) (array_elems arr) = map Some rs -> rs <> [] ->
  map value_of rs = map Some vs ->
  exists r, arrayCollection instance_of array_elems new_array t arr = Some r /\
    value_of r = Some (new_array vs) /\
    errors_of r = List.concat (map errors_of rs) /\
    warnings_of r = List.concat (map warnings_of rs) /\
    (isValid r = true <-> errors_of r = []).
Proof.
  intros Ha Hm Hne Hv. unfold arrayCollection. rewrite chain_instance_array by exact Ha.
  pose proof (run_each_const t (array_elems arr) rs Hm) as Hrun.
  set (results := map (fun r => (Some (fst t), r)) rs) in *.
  assert (Hvals : map (fun cr => value_of (snd cr)) results = map Some vs)
    by (unfold results; rewrite map_map; exact Hv).
  assert (Hne' : results <> []) by (unfold results; destruct rs; [congruence|discriminate]).
  destruct (AlgebraExtras.merge_nonfailing_view results
              (fun values => Some (valid_default (new_array values))) vs
              (valid_default (new_array vs)) Hne' Hvals eq_refl eq_refl)
    as [r0 [H1 [H2 [H3 [H4 [H5 _]]]]]].
  destruct (AlgebraExtras.captures_nonfailure r0 H5) as [caps Hc].
  destruct (AlgebraExtras.bind_nf (valid_default arr)
              (fun arr => match run_each (map (fun x => (t, x)) (array_elems arr)) with
                          | None => None
                          | Some results =>
                              mergeResults results
                                (fun values => Some (valid_default (new_array values)))
                          end)
              arr [new_CaptureSet []] r0 caps eq_refl eq_refl
              ltac:(cbv beta; rewrite Hrun; exact H1) Hc)
    as [r [G1 [G2 [G3 [G4 [G5 _]]]]]].
  exists r. split; [exact G1|].
  assert (Ee : flatMap results (fun cr => errors_of (snd cr)) = List.concat (map errors_of rs))
    by (unfold flatMap, results; rewrite map_map; reflexivity).
  assert (Ew : flatMap results (fun cr => warnings_of (snd cr)) =
               List.concat (map warnings_of rs))
    by (unfold flatMap, results; rewrite map_map; reflexivity).
  assert (E1 : errors_of r = List.concat (map errors_of rs))
    by (rewrite G4, H3, Ee; reflexivity).
  rewrite G2, H2. split; [reflexivity|].
  split; [exact E1|].
  split; [rewrite G3, H4, Ew; reflexivity|].
  exact G5.
Qed.



Lemma chain_instance_object (obj : val) (f : transformer) :
  js_instanceof instance_of obj ObjectRef = true ->
  chain (instance instance_of ObjectCtor) [f] obj = bind (valid_default obj) f.
Proof. intros H. unfold chain, instance. simpl. rewrite H. reflexivity. Qed.

Lemma run_each_some (calls : list ((tid * transformer) * val)) (rs : list result) :
  map (fun c => snd (fst c) (snd c)) calls = map Some rs ->
  exists results, run_each calls = Some results /\ map snd results = rs.
Proof.
  revert rs. induction calls as [|[[id f] x] calls IH]; intros [|r rs] H; simpl in H;
    try discriminate.
  - exists []. split; reflexivity.
  - injection H as Hx H. destruct (IH rs H) as [results [H1 H2]].
    exists ((Some id, r) :: results). simpl. rewrite Hx, H1. split; [reflexivity|].
    simpl. rewrite H2. reflexivity.
Qed.

(** [objectShape(pattern)] on an object whose properties the pattern's
    transformers map to non-failing results (a non-empty pattern): the value
    is a new object pairing each pattern key, in pattern order, with the
    value produced for it; the errors and warnings are those of the
    properties in pattern order, and the result is [Valid] exactly when no
    property has an error. *)
Theorem objectShape_aggregates (pattern : list (string * (tid * transformer))) (obj : val)
  (rs : list result) (vs : list val) :
  js_instanceof instance_of obj ObjectRef = true ->
  map (fun kp => snd (snd kp) (prop obj (fst kp))) pattern = map Some rs -> rs <> [] ->
  map value_of rs = map Some vs ->
  exists r, objectShape instance_of prop new_object pattern obj = Some r /\
    value_of r = Some (new_object (combine (map fst pattern) vs)) /\
    errors_of r = List.concat (map errors_of rs) /\
    warnings_of r = List.concat (map warnings_of rs) /\
    (isValid r = true <-> errors_of r = []).
Proof.
  intros Ho Hm Hne Hv. unfold objectShape. rewrite chain_instance_object by exact Ho.
  destruct (run_each_some (map (fun kp => (snd kp, prop obj (fst kp))) pattern) rs
              ltac:(rewrite map_map; exact Hm)) as [results [Hrun Hsnd]].
  assert (Hvals : map (fun cr => value_of (snd cr)) results = map Some vs)
    by (rewrite <- map_map, Hsnd; exact Hv).
  assert (Hne' : results <> []) by (intros ->; simpl in Hsnd; subst rs; congruence).
  destruct (AlgebraExtras.merge_nonfailing_view results
              (fun values => Some (valid_default (new_object (combine (map fst pattern) values))))
              vs (valid_default (new_object (combine (map fst pattern) vs)))
              Hne' Hvals eq_refl eq_refl)
    as [r0 [H1 [H2 [H3 [H4 [H5 _]]]]]].
  destruct (AlgebraExtras.captures_nonfailure r0 H5) as [caps Hc].
  destruct (AlgebraExtras.bind_nf (valid_default obj)
              (fun obj =>
                 let keys := map fst pattern in
                 match run_each (map (fun kp => (snd kp, prop obj (fst kp))) pattern) with
                 | None => None
                 | Some results =>
                     mergeResults results
                       (fun values => Some (valid_default (new_object (combine keys values))))
                 end)
              obj [new_CaptureSet []] r0 caps eq_refl eq_refl
              ltac:(cbv beta zeta; rewrite Hrun; exact H1) Hc)
    as [r [G1 [G2 [G3 [G4 [G5 _]]]]]].
  exists r. split; [exact G1|].
  assert (Ee : flatMap results (fun cr => errors_of (snd cr)) = List.concat (map errors_of rs))
    by (unfold flatMap; rewrite <- Hsnd, map_map; reflexivity).
  assert (Ew : flatMap results (fun cr => warnings_of (snd cr)) =
               List.concat (map warnings_of rs))
    by (unfold flatMap; rewrite <- Hsnd, map_map; reflexivity).
  assert (E1 : errors_of r = List.concat (map errors_of rs))
    by (rewrite G4, H3, Ee; reflexivity).
  rewrite G2, H2. split; [reflexivity|].
  split; [exact E1|].
  split; [rewrite G3, H4, Ew; reflexivity|].
  exact G5.
Qed.

End Combinators.

Lemma arrayShape_length_mismatch_witness :
  arrayShape demo_instance_of demo_array_elems demo_new_array [(1, accept)] (VObj 2) =
  Some (failure ["Received input of length 2 where length 1 was expected"] []).
Proof.
  rewrite (arrayShape_length_mismatch demo_instance_of demo_array_elems demo_new_array
             [(1, accept)] (VObj 2) eq_refl ltac:(simpl; lia)).
  reflexivity.
Defined.

Lemma pojo_empty_throws_witness :
  arrayCollection demo_instance_of demo_array_elems demo_new_array (1, accept) (VObj 1) = None /\
  objectShape demo_instance_of demo_prop demo_new_object [] (VObj 0) = None.
Proof.
  destruct (pojo_empty_throws demo_instance_of demo_object_keys demo_prop demo_array_elems
              demo_new_object demo_new_array (1, accept) (VObj 1) (VObj 0)
              eq_refl eq_refl eq_refl eq_refl) as [A [_ [C _]]].
  split; assumption.
Defined.


Lemma constant_classification_witness :
  let r := invalid (VNum 2) ["Received input with value '2' where '1' was expected"] []
             [new_CaptureSet []] in
  constant demo_obj_to_string (VNum 1) (VNum 2) = Some r /\
  List.length (errors_of r) = 1 /\ isFailure r = false.
Proof.
  intros r.
  assert (H : constant demo_obj_to_string (VNum 1) (VNum 2) = Some r) by reflexivity.
  destruct (constant_classification demo_obj_to_string (VNum 1) (VNum 2) r H)
    as [_ [_ C]].
  destruct (C ltac:(discriminate)) as [L [_ [F _]]].
  split; [exact H|]. split; [exact L|]. apply F. reflexivity.
Defined.

Lemma constant_throws_iff_witness :
  let ots := fun _ : nat => (None : option string) in
  constant ots VNull (VObj 3) = None /\ constant ots (VNum 1) (VObj 3) <> None.
Proof.
  intros ots. split.
  - apply (proj2 (constant_throws_iff ots VNull (VObj 3) ltac:(discriminate))).
    split; [reflexivity|]. exists 3. split; reflexivity.
  - intros H.
    destruct (proj1 (constant_throws_iff ots (VNum 1) (VObj 3) ltac:(discriminate)) H)
      as [C _].
    discriminate C.
Defined.

Lemma arrayCollection_aggregates_witness :
  let bad := fun x => Some (invalid x ["bad"] [] [new_CaptureSet []]) in
  exists r, arrayCollection demo_instance_of demo_array_elems demo_new_array (1, bad) (VObj 2)
              = Some r /\
    value_of r = Some (demo_new_array [VNum 1; VNum 2]) /\
    errors_of r = ["bad"; "bad"] /\ isValid r = false.
Proof.
  intros bad.
  destruct (arrayCollection_aggregates demo_instance_of demo_array_elems demo_new_array
              (1, bad) (VObj 2)
              [invalid (VNum 1) ["bad"] [] [new_CaptureSet []];
               invalid (VNum 2) ["bad"] [] [new_CaptureSet []]] [VNum 1; VNum 2]
              eq_refl eq_refl ltac:(discriminate) eq_refl)
    as [r [H1 [H2 [H3 [_ H5]]]]].
  exists r. split; [exact H1|]. split; [exact H2|]. split; [exact H3|].
  rewrite H3 in H5. destruct (isValid r); [|reflexivity].
  discriminate (proj1 H5 eq_refl).
Defined.


Lemma objectShape_aggregates_witness :
  let bad := fun x => Some (invalid x ["bad"] [] [new_CaptureSet []]) in
  exists r, objectShape demo_instance_of demo_prop demo_new_object
              [("a", (1, accept)); ("b", (2, bad))] (VObj 0) = Some r /\
    errors_of r = ["bad"] /\ isValid r = false.
Proof.
  intros bad.
  destruct (objectShape_aggregates demo_instance_of demo_prop demo_new_object
              [("a", (1, accept)); ("b", (2, bad))] (VObj 0)
              [valid_default VUndefined; invalid VUndefined ["bad"] [] [new_CaptureSet []]]
              [VUndefined; VUndefined]
              eq_refl eq_refl ltac:(discriminate) eq_refl)
    as [r [H1 [_ [H3 [_ H5]]]]].
  exists r. split; [exact H1|]. split; [exact H3|].
  rewrite H3 in H5. destruct (isValid r); [|reflexivity].
  discriminate (proj1 H5 eq_refl).
Defined.

Lemma instance_primitive_outcome_witness :
  instance demo_instance_of (mkCtor NumberRef "Number") (VStr "1") =
    Some (failure ["Received input of type 'string' where 'number' was expected"] []) /\
  instance demo_instance_of (mkCtor NumberRef "Number") (VNum 1) = Some (valid_default (VNum 1)).
Proof.
  destruct (instance_primitive_outcome demo_instance_of (mkCtor NumberRef "Number") "number"
              (VStr "1") eq_refl) as [r [H1 [_ [V [_ F]]]]].
  destruct (instance_primitive_outcome demo_instance_of (mkCtor NumberRef "Number") "number"
              (VNum 1) eq_refl) as [r' [H1' [_ [V' [G _]]]]].
  split.
  - rewrite H1, F; [reflexivity|].
    destruct (isValid r) eqn:E; [|reflexivity].
    discriminate (proj1 V eq_refl).
  - rewrite H1', G; [reflexivity|]. apply V'. reflexivity.
Defined.

End PojoFacts.
